(** * adetailer/mask.py: mask and bounding-box post-processing

    A shallow embedding of [adetailer/mask.py] and the properties of its
    filters, sorter, geometric transforms and mask combiner.

    Python values are modelled as follows.
    - [int] is [Z]; [float] is the kernel's binary64 [float] (PrimFloat),
      whose operations round exactly as CPython's do.
    - An exception is a value of [exn]; a function that may raise returns
      a [result].
    - A PIL image of mode "L" is its size and its rows of 8-bit pixels; a
      numpy [uint8] array of rank two is its shape and its rows.
    - [IntEnum] members are their integer values. *)

From Stdlib Require Import String.
From Stdlib Require Import ZArith List Bool Lia Sorted Permutation.
From Stdlib Require Import Floats.
Import ListNotations.
Open Scope Z_scope.

(** ** Exceptions *)

Inductive exn : Set :=
| RuntimeError
| ValueError
| IndexError
| TypeError
| ZeroDivisionError
| OverflowError
| Cv2Error.

Inductive result (A : Type) : Type :=
| Ok (a : A)
| Raise (e : exn).

Arguments Ok {A} a.
Arguments Raise {A} e.

Definition bind {A B : Type} (r : result A) (k : A -> result B) : result B :=
  match r with
  | Ok a => k a
  | Raise e => Raise e
  end.

Notation "x <- r ;; k" := (bind r (fun x => k))
  (at level 61, r at next level, right associativity).

(** A list comprehension whose element expression may raise: elements are
    evaluated left to right and the first exception aborts it. *)
Fixpoint comprehension {A B : Type} (f : A -> result B) (l : list A)
  : result (list B) :=
  match l with
  | [] => Ok []
  | a :: l' => b <- f a ;; bs <- comprehension f l' ;; Ok (b :: bs)
  end.

(** [l[i]] for an index that is not negative. *)
Definition getitem {A : Type} (l : list A) (i : nat) : result A :=
  match nth_error l i with
  | Some a => Ok a
  | None => Raise IndexError
  end.

(** [range(n)] as list indices. *)
Definition range (n : nat) : list nat := seq 0 n.

(** [len(l)] as a Python int. *)
Definition len {A : Type} (l : list A) : Z := Z.of_nat (length l).

(** ** Images and arrays *)

(** A PIL image of mode "L": [size = (xsize, ysize)], and the pixel at
    column [x] of row [y] is [im[y][x]], a value in [0, 255]. *)
Record Image : Set := mkImage {
  xsize : Z;
  ysize : Z;
  im : list (list Z)
}.

(** A numpy array of dtype [uint8] and shape [(nrows, ncols)]. *)
Record ndarray : Set := mkArray {
  nrows : Z;
  ncols : Z;
  data : list (list Z)
}.

(** [np.array(img)] and [Image.fromarray(arr)]. *)
Definition np_array (img : Image) : ndarray :=
  mkArray (ysize img) (xsize img) (im img).

Definition Image_fromarray (arr : ndarray) : Image :=
  mkImage (ncols arr) (nrows arr) (data arr).

(** The indices [0 .. n-1] of an axis of extent [n]. *)
Definition axis (n : Z) : list Z := map Z.of_nat (seq 0 (Z.to_nat n)).

(** The rows of an array of shape [(h, w)] whose element [(i, j)] is [f i j]. *)
Definition tabulate (h w : Z) (f : Z -> Z -> Z) : list (list Z) :=
  map (fun i => map (fun j => f i j) (axis w)) (axis h).

(** Element [(i, j)] of the rows [rows], for indices in range. *)
Definition px (rows : list (list Z)) (i j : Z) : Z :=
  nth (Z.to_nat j) (nth (Z.to_nat i) rows []) 0.

(** The image is what its size says, and its pixels are bytes.  The extent
    is positive, as every reference image and mask has it, and a C int, as
    PIL stores it. *)
Definition wf_row (w : Z) (row : list Z) : bool :=
  (len row =? w) && forallb (fun p => (0 <=? p) && (p <? 256)) row.

Definition wf_extent (img : Image) : bool :=
  (0 <? xsize img) && (xsize img <? 2 ^ 31) &&
  (0 <? ysize img) && (ysize img <? 2 ^ 31).

Definition wf_image (img : Image) : bool :=
  wf_extent img &&
  (len (im img) =? ysize img) && forallb (wf_row (xsize img)) (im img).

(** [cv2.countNonZero] of rows of pixels. *)
Definition countNonZero (rows : list (list Z)) : Z :=
  fold_right (fun row acc =>
    fold_right (fun p n => if p =? 0 then n else 1 + n) 0 row + acc) 0 rows.

(** ** Enumerations *)

Module SortBy.
Definition NONE : Z := 0.
Definition LEFT_TO_RIGHT : Z := 1.
Definition CENTER_TO_EDGE : Z := 2.
Definition AREA : Z := 3.
End SortBy.

Module MergeInvert.
Definition NONE : Z := 0.
Definition MERGE : Z := 1.
Definition MERGE_INVERT : Z := 2.
Definition SUBTRACT : Z := 3.
End MergeInvert.

(** ** Subtract *)

(** numpy broadcasting of one axis: equal extents, or one of them is 1. *)
Definition broadcast_dim (a b : Z) : option Z :=
  if a =? b then Some a
  else if a =? 1 then Some b
  else if b =? 1 then Some a
  else None.

(** The index into an axis of extent [n] for the broadcast index [i]. *)
Definition bidx (n i : Z) : Z := if n =? 1 then 0 else i.

(** [arr1 - arr2] on [uint8] arrays: the difference is taken in [uint8],
    that is modulo 256; shapes that do not broadcast raise [ValueError]. *)
Definition np_subtract (arr1 arr2 : ndarray) : result ndarray :=
  match broadcast_dim (nrows arr1) (nrows arr2),
        broadcast_dim (ncols arr1) (ncols arr2) with
  | Some h, Some w =>
      Ok (mkArray h w
            (tabulate h w (fun i j =>
               (px (data arr1) (bidx (nrows arr1) i) (bidx (ncols arr1) j)
                - px (data arr2) (bidx (nrows arr2) i) (bidx (ncols arr2) j))
               mod 256)))
  | _, _ => Raise ValueError
  end.

(** [np.clip(arr, lo, hi)]. *)
Definition np_clip (arr : ndarray) (lo hi : Z) : ndarray :=
  mkArray (nrows arr) (ncols arr)
    (map (map (fun p => Z.min (Z.max p lo) hi)) (data arr)).

Definition subtract_masks (mask1 mask2 : Image) : result Image :=
  let arr1 := np_array mask1 in
  let arr2 := np_array mask2 in
  d <- np_subtract arr1 arr2 ;;
  let subtracted_arr := np_clip d 0 255 in
  let subtracted_mask := Image_fromarray subtracted_arr in
  Ok subtracted_mask.

(** ** Geometric transforms *)

(** [cv2.getStructuringElement(cv2.MORPH_RECT, (value, value))]: a
    [value] by [value] array of ones. *)
Definition getStructuringElement_RECT (value : Z) : ndarray :=
  mkArray value value (tabulate value value (fun _ _ => 1)).

(** The source pixels a morphological operation reads for the output
    pixel [(i, j)]: those under the nonzero elements of the kernel placed
    with its anchor, the centre [(nrows / 2, ncols / 2)], on [(i, j)].
    Positions outside the array do not count: the default border is the
    neutral value of the operation. *)
Definition under_kernel (arr kernel : ndarray) (i j : Z) : list Z :=
  flat_map (fun ki =>
    flat_map (fun kj =>
      let y := i + ki - nrows kernel / 2 in
      let x := j + kj - ncols kernel / 2 in
      if negb (px (data kernel) ki kj =? 0)
         && (0 <=? y) && (y <? nrows arr) && (0 <=? x) && (x <? ncols arr)
      then [px (data arr) y x] else [])
      (axis (ncols kernel)))
    (axis (nrows kernel)).

(** [cv2.dilate(arr, kernel, iterations=1)]: the maximum under the kernel. *)
Definition cv2_dilate (arr kernel : ndarray) : ndarray :=
  mkArray (nrows arr) (ncols arr)
    (tabulate (nrows arr) (ncols arr) (fun i j =>
       fold_right Z.max 0 (under_kernel arr kernel i j))).

(** [cv2.erode(arr, kernel, iterations=1)]: the minimum under the kernel. *)
Definition cv2_erode (arr kernel : ndarray) : ndarray :=
  mkArray (nrows arr) (ncols arr)
    (tabulate (nrows arr) (ncols arr) (fun i j =>
       fold_right Z.min 255 (under_kernel arr kernel i j))).

Definition _dilate (arr : ndarray) (value : Z) : ndarray :=
  let kernel := getStructuringElement_RECT value in
  cv2_dilate arr kernel.

Definition _erode (arr : ndarray) (value : Z) : ndarray :=
  let kernel := getStructuringElement_RECT value in
  cv2_erode arr kernel.

Definition dilate_erode (img : Image) (value : Z) : Image :=
  if value =? 0 then img
  else
    let arr := np_array img in
    let arr := if value >? 0 then _dilate arr value else _erode arr (- value) in
    Image_fromarray arr.

(** An integer that fits a C int, which is what PIL takes an offset as. *)
Definition c_int (n : Z) : bool := (- 2 ^ 31 <=? n) && (n <? 2 ^ 31).

(** [ImagingOffset], the C function under [ImageChops.offset]: the offsets
    are reduced with C's remainder and made positive, then every output
    pixel is read at the shifted position modulo the size. *)
Definition ImagingOffset (image : Image) (xoffset yoffset : Z) : Image :=
  let xoffset := Z.rem xoffset (xsize image) in
  let xoffset := xsize image - xoffset in
  let xoffset := if xoffset <? 0 then xoffset + xsize image else xoffset in
  let yoffset := Z.rem yoffset (ysize image) in
  let yoffset := ysize image - yoffset in
  let yoffset := if yoffset <? 0 then yoffset + ysize image else yoffset in
  mkImage (xsize image) (ysize image)
    (tabulate (ysize image) (xsize image) (fun y x =>
       let yi := Z.rem (y + yoffset) (ysize image) in
       let xi := Z.rem (x + xoffset) (xsize image) in
       px (im image) yi xi)).

(** [ImageChops.offset(image, xoffset, yoffset)]: both offsets are
    converted to C ints, and one that does not fit raises
    [OverflowError]. *)
Definition ImageChops_offset (image : Image) (xoffset yoffset : Z)
  : result Image :=
  if c_int xoffset && c_int yoffset
  then Ok (ImagingOffset image xoffset yoffset)
  else Raise OverflowError.

Definition offset (img : Image) (x y : Z) : result Image :=
  ImageChops_offset img x (- y).

Definition is_all_black (img : Image) : bool :=
  let arr := np_array img in
  countNonZero (data arr) =? 0.

(** ** Merge / Invert *)

(** [cv2.bitwise_or]: elementwise on two arrays of one shape; when the
    shapes differ and one array is 1 by 1, that array is taken as a scalar
    and the result has the shape of the other; any other pair of shapes is
    an error. *)
Definition cv2_bitwise_or (a b : ndarray) : result ndarray :=
  if (nrows a =? nrows b) && (ncols a =? ncols b) then
    Ok (mkArray (nrows a) (ncols a)
          (tabulate (nrows a) (ncols a) (fun i j =>
             Z.lor (px (data a) i j) (px (data b) i j))))
  else if (nrows b =? 1) && (ncols b =? 1) then
    Ok (mkArray (nrows a) (ncols a)
          (tabulate (nrows a) (ncols a) (fun i j =>
             Z.lor (px (data a) i j) (px (data b) 0 0))))
  else if (nrows a =? 1) && (ncols a =? 1) then
    Ok (mkArray (nrows b) (ncols b)
          (tabulate (nrows b) (ncols b) (fun i j =>
             Z.lor (px (data a) 0 0) (px (data b) i j))))
  else Raise Cv2Error.

(** [functools.reduce(f, l)] without an initial value. *)
Definition reduce {A : Type} (f : A -> A -> result A) (l : list A) : result A :=
  match l with
  | [] => Raise TypeError
  | a :: l' => fold_left (fun acc x => y <- acc ;; f y x) l' (Ok a)
  end.

Definition mask_merge (masks : list Image) : result (list Image) :=
  let arrs := map np_array masks in
  arr <- reduce cv2_bitwise_or arrs ;;
  Ok [Image_fromarray arr].

(** [ImageChops.invert]: every pixel [p] becomes [255 - p]. *)
Definition ImageChops_invert (m : Image) : Image :=
  mkImage (xsize m) (ysize m) (map (map (fun p => 255 - p)) (im m)).

Definition mask_invert (masks : list Image) : list Image :=
  map ImageChops_invert masks.

(** Modelled from the spec: [adetailer.args.MASK_MERGE_INVERT], the ordered
    table of the aliases of the merge/invert modes, is imported by the
    module and declared outside it. *)
Definition MASK_MERGE_INVERT : list string :=
  ["None"; "Merge"; "Merge and Invert"; "Subtract"]%string.

(** [l.index(s)]: the first position of [s], [ValueError] when absent. *)
Fixpoint list_index (l : list string) (s : string) : result Z :=
  match l with
  | [] => Raise ValueError
  | t :: l' => if String.eqb t s then Ok 0 else i <- list_index l' s ;; Ok (1 + i)
  end.

(** The [mode] argument: [int | MergeInvert | str]. *)
Inductive mode_arg : Set :=
| ModeInt (n : Z)
| ModeStr (s : string).

Definition mask_merge_invert (masks : list Image) (mode : mode_arg)
  : result (list Image) :=
  mode <- match mode with
          | ModeStr s => list_index MASK_MERGE_INVERT s
          | ModeInt n => Ok n
          end ;;
  if (mode =? MergeInvert.NONE) || (len masks =? 0) then Ok masks
  else if mode =? MergeInvert.MERGE then mask_merge masks
  else if mode =? MergeInvert.MERGE_INVERT then
    merged <- mask_merge masks ;;
    Ok (mask_invert merged)
  else if mode =? MergeInvert.SUBTRACT then
    if negb (len masks =? 2) then Ok masks
    else
      m0 <- getitem masks 0 ;;
      m1 <- getitem masks 1 ;;
      s <- subtract_masks m0 m1 ;;
      Ok [s]
  else Raise RuntimeError.

Definition mask_preprocess (masks : list Image) (kernel x_offset y_offset : Z)
    (merge_invert : mode_arg) : result (list Image) :=
  if len masks =? 0 then Ok []
  else
    masks <- (if negb (x_offset =? 0) || negb (y_offset =? 0)
              then comprehension (fun m => offset m x_offset y_offset) masks
              else Ok masks) ;;
    let masks :=
      if negb (kernel =? 0)
      then
        let masks := map (fun m => dilate_erode m kernel) masks in
        filter (fun m => negb (is_all_black m)) masks
      else masks in
    mask_merge_invert masks merge_invert.

(** ** Numbers *)

(** Conversion of a Python int to a float: rounded to nearest even, and
    [OverflowError] when the int rounds beyond the largest float, that is
    from [2 ^ 1024 - 2 ^ 970] on. *)
Definition float_of_int (n : Z) : result float :=
  if Z.abs n <? 2 ^ 1024 - 2 ^ 970
  then Ok (SF2Prim (binary_normalize prec emax n 0 false))
  else Raise OverflowError.

(** [a / n] for a float [a] and an int [n]. *)
Definition float_truediv_int (a : float) (n : Z) : result float :=
  d <- float_of_int n ;;
  if n =? 0 then Raise ZeroDivisionError else Ok (a / d)%float.

(** [a / b] for two ints, for operands that a float holds exactly (below
    [2 ^ 53]), as the sizes of an image are. *)
Definition int_truediv (a b : Z) : result float :=
  x <- float_of_int a ;;
  y <- float_of_int b ;;
  if b =? 0 then Raise ZeroDivisionError else Ok (x / y)%float.

(** ** Predictions *)

(** A bounding box [[x1, y1, x2, y2]]. *)
Record bbox : Set := mkBbox {
  x1 : float;
  y1 : float;
  x2 : float;
  y2 : float
}.

(** Modelled from the spec: [adetailer.common.PredictOutput], the class of
    the prediction set, is imported by the module and declared outside it.
    It holds the bounding boxes, the masks aligned with them, the optional
    confidences, and the reference image whose size is the extent. *)
Record PredictOutput : Set := mkPredictOutput {
  bboxes : list bbox;
  masks : list Image;
  confidences : list float;
  preview : Image
}.

(** The assignments [pred.bboxes = bs] and [pred.masks = ms]. *)
Definition set_bboxes (pred : PredictOutput) (bs : list bbox) : PredictOutput :=
  mkPredictOutput bs (masks pred) (confidences pred) (preview pred).

Definition set_masks (pred : PredictOutput) (ms : list Image) : PredictOutput :=
  mkPredictOutput (bboxes pred) ms (confidences pred) (preview pred).

Definition bbox_area (b : bbox) : float :=
  ((x2 b - x1 b) * (y2 b - y1 b))%float.

(** ** Sorting *)

(** A stable sort by the strict order [lt]: an element is put before the
    first element of the sorted rest that is not strictly below it, so it
    stays ahead of its equals.  On a strict weak order every stable sort
    gives this list. *)
Fixpoint insert_sorted {A : Type} (lt : A -> A -> bool) (x : A) (l : list A)
  : list A :=
  match l with
  | [] => [x]
  | y :: l' => if lt y x then y :: insert_sorted lt x l' else x :: y :: l'
  end.

Definition stable_sort {A : Type} (lt : A -> A -> bool) (l : list A) : list A :=
  fold_right (insert_sorted lt) [] l.

(** [list.sort], as CPython runs it on a list of fewer than 64 elements:
    the natural run at the head of the list is found and, when it
    descends, reversed; then every further element is put into the sorted
    part by binary insertion.  The comparisons are those CPython makes, in
    the order it makes them, so the result is CPython's also when [lt] is
    not an order, as [<] is not among floats with a NaN. *)

(** The count of further elements of a run that does not descend, after
    its element [prev]. *)
Fixpoint run_ascending {A : Type} (lt : A -> A -> bool) (prev : A) (l : list A)
  : nat :=
  match l with
  | [] => 0%nat
  | x :: l' => if lt x prev then 0%nat else S (run_ascending lt x l')
  end.

(** The count of further elements of a strictly descending run. *)
Fixpoint run_descending {A : Type} (lt : A -> A -> bool) (prev : A) (l : list A)
  : nat :=
  match l with
  | [] => 0%nat
  | x :: l' => if lt x prev then S (run_descending lt x l') else 0%nat
  end.

(** [count_run]: the length of the run at the head of the list, and
    whether it descends. *)
Definition count_run {A : Type} (lt : A -> A -> bool) (l : list A) : nat * bool :=
  match l with
  | [] => (0%nat, false)
  | [_] => (1%nat, false)
  | a :: b :: l' =>
      if lt b a then (2 + run_descending lt b l', true)%nat
      else (2 + run_ascending lt b l', false)%nat
  end.

(** The binary search of [binarysort]: the place of [pivot] in the sorted
    part [a], between [l] and [r]. *)
Fixpoint bisect {A : Type} (fuel : nat) (lt : A -> A -> bool) (pivot : A)
    (a : list A) (l r : nat) : nat :=
  match fuel with
  | O => l
  | S fuel' =>
      if (l <? r)%nat then
        let p := (l + (r - l) / 2)%nat in
        if lt pivot (nth p a pivot) then bisect fuel' lt pivot a l p
        else bisect fuel' lt pivot a (S p) r
      else l
  end.

(** One step of [binarysort]: [pivot] is put at its place in [a]. *)
Definition binary_insert {A : Type} (lt : A -> A -> bool) (a : list A) (pivot : A)
  : list A :=
  let l := bisect (length a) lt pivot a 0 (length a) in
  firstn l a ++ pivot :: skipn l a.

(** [binarysort]: the elements of [rest] are put into the sorted part [a]
    one after the other. *)
Definition binarysort {A : Type} (lt : A -> A -> bool) (a rest : list A) : list A :=
  fold_left (binary_insert lt) rest a.

(** [list.sort].  From 64 elements on CPython merges several runs; there
    the list is taken to be what a stable sort gives, which is CPython's
    result whenever [lt] is a strict weak order on the elements. *)
Definition listsort {A : Type} (lt : A -> A -> bool) (l : list A) : list A :=
  if (length l <? 2)%nat then l
  else if (length l <? 64)%nat then
    let '(n, descending) := count_run lt l in
    let run := firstn n l in
    let run := if descending then rev run else run in
    binarysort lt run (skipn n l)
  else stable_sort lt l.

(** [sorted(l, key=key)]: the keys are computed first, left to right, and
    the list is sorted by [<] on the keys. *)
Definition sorted {A : Type} (l : list A) (key : A -> result float)
  : result (list A) :=
  keys <- comprehension key l ;;
  Ok (map snd (listsort (fun p q => (fst p <? fst q)%float) (combine keys l))).

Definition _key_left_to_right (b : bbox) : float := x1 b.

Definition _key_area (b : bbox) : float := (- bbox_area b)%float.

Section Sorter.

(** [math.dist] on points of the plane: the library's function, of which
    only that it is a function is used. *)
Variable dist : float * float -> float * float -> float.

Definition _key_center_to_edge (center : float * float) (b : bbox) : float :=
  let bbox_center := ((x1 b + x2 b) / 2, (y1 b + y2 b) / 2)%float in
  dist center bbox_center.

Definition sort_bboxes (pred : PredictOutput) (order : Z)
  : result PredictOutput :=
  if (order =? SortBy.NONE) || (len (bboxes pred) <=? 1) then Ok pred
  else
    key <- (if order =? SortBy.LEFT_TO_RIGHT then Ok _key_left_to_right
            else if order =? SortBy.CENTER_TO_EDGE then
              let width := xsize (preview pred) in
              let height := ysize (preview pred) in
              cx <- int_truediv width 2 ;;
              cy <- int_truediv height 2 ;;
              let center := (cx, cy) in
              Ok (_key_center_to_edge center)
            else if order =? SortBy.AREA then Ok _key_area
            else Raise RuntimeError) ;;
    let items := length (bboxes pred) in
    idx <- sorted (range items)
             (fun i => b <- getitem (bboxes pred) i ;; Ok (key b)) ;;
    bs <- comprehension (getitem (bboxes pred)) idx ;;
    let pred1 := set_bboxes pred bs in
    ms <- comprehension (getitem (masks pred1)) idx ;;
    Ok (set_masks pred1 ms).

End Sorter.

(** ** Filter by ratio *)

Definition is_in_ratio (b : bbox) (low high : float) (orig_area : Z)
  : result bool :=
  let area := bbox_area b in
  r <- float_truediv_int area orig_area ;;
  Ok ((low <=? r) && (r <=? high))%float.

(** [[a for a in l if c(a)]] for a condition that may raise. *)
Fixpoint comprehension_if {A : Type} (c : A -> result bool) (l : list A)
  : result (list A) :=
  match l with
  | [] => Ok []
  | a :: l' =>
      keep <- c a ;;
      rest <- comprehension_if c l' ;;
      Ok (if keep then a :: rest else rest)
  end.

Definition filter_by_ratio (pred : PredictOutput) (low high : float)
  : result PredictOutput :=
  if len (bboxes pred) =? 0 then Ok pred
  else
    let w := xsize (preview pred) in
    let h := ysize (preview pred) in
    let orig_area := w * h in
    let items := length (bboxes pred) in
    idx <- comprehension_if
             (fun i => b <- getitem (bboxes pred) i ;;
                       is_in_ratio b low high orig_area)
             (range items) ;;
    bs <- comprehension (getitem (bboxes pred)) idx ;;
    let pred1 := set_bboxes pred bs in
    ms <- comprehension (getitem (masks pred1)) idx ;;
    Ok (set_masks pred1 ms).

(** ** Filter k largest *)

(** The order numpy sorts floats in: [<], with NaN after everything else. *)
Definition np_lt (a b : float) : bool :=
  (a <? b)%float || (is_nan b && negb (is_nan a)).

(** [np.argsort(areas)]: the indices that sort [areas] ascending.  Equal
    elements are given in their order of appearance, which is what numpy
    does on short arrays; on long arrays it promises no order among
    equals. *)
Definition np_argsort (areas : list float) : list nat :=
  map snd (stable_sort (fun p q => np_lt (fst p) (fst q))
             (combine areas (range (length areas)))).

(** The slice [l[start:]]: a negative [start] counts from the end, and
    both are clipped to the list. *)
Definition slice_from {A : Type} (l : list A) (start : Z) : list A :=
  let start := if start <? 0 then Z.max (len l + start) 0
               else Z.min start (len l) in
  skipn (Z.to_nat start) l.

Definition filter_k_largest (pred : PredictOutput) (k : Z)
  : result PredictOutput :=
  if (len (bboxes pred) =? 0) || (k =? 0) then Ok pred
  else
    let areas := map bbox_area (bboxes pred) in
    let idx := slice_from (np_argsort areas) (- k) in
    bs <- comprehension (getitem (bboxes pred)) idx ;;
    let pred1 := set_bboxes pred bs in
    ms <- comprehension (getitem (masks pred1)) idx ;;
    Ok (set_masks pred1 ms).

(** A prediction set as the detector hands it over: as many masks as
    bounding boxes, and a reference image of positive extent. *)
Definition PredictionSet (pred : PredictOutput) : bool :=
  (length (bboxes pred) =? length (masks pred))%nat && wf_extent (preview pred).

(** ** Vocabulary of the statements *)

(** The nonzero-pixel count of a mask, as [is_all_black] takes it. *)
Definition nonzero_pixels (img : Image) : Z :=
  countNonZero (data (np_array img)).

(** The count of nonzero pixels of one row. *)
Definition count_row (row : list Z) : Z :=
  fold_right (fun p n => if p =? 0 then n else 1 + n) 0 row.

(** The clamp of an exact difference, as the specification of [subtract]
    has it. *)
Definition clamp (x lo hi : Z) : Z := Z.min (Z.max x lo) hi.

(** The mode argument [mode] stands for the integer mode [n]: it is that
    integer, or an alias that the table resolves to it. *)
Definition resolves (mode : mode_arg) (n : Z) : Prop :=
  mode = ModeInt n \/
  exists s, mode = ModeStr s /\ list_index MASK_MERGE_INVERT s = Ok n.

(** [out] is what [l] holds at the indices [idx], in the order of [idx]. *)
Definition picks {A : Type} (l : list A) (idx : list nat) (out : list A) : Prop :=
  Forall2 (fun i a => nth_error l i = Some a) idx out.

(** [np_lt] on the specification of binary64. *)
Definition sf_lt (a b : spec_float) : bool :=
  SFltb a b || (negb (SFeqb b b) && SFeqb a a).

(** Ascending areas: [a] is at most [b], or [b] is a NaN, which
    [np.argsort] puts last. *)
Definition area_le (a b : float) : Prop :=
  (a <=? b)%float = true \/ is_nan b = true.

(** The key [sort_bboxes] sorts by, for each of the three orders. *)
Definition key_for (dist : float * float -> float * float -> float)
    (pred : PredictOutput) (order : Z) (key : bbox -> float) : Prop :=
  (order = SortBy.LEFT_TO_RIGHT /\ key = _key_left_to_right) \/
  (order = SortBy.CENTER_TO_EDGE /\
   exists cx cy,
     int_truediv (xsize (preview pred)) 2 = Ok cx /\
     int_truediv (ysize (preview pred)) 2 = Ok cy /\
     key = _key_center_to_edge dist (cx, cy)) \/
  (order = SortBy.AREA /\ key = _key_area).

(** The indices of [bs] as [sorted] returns them for the key. *)
Definition sorted_index (key : bbox -> float) (bs : list bbox) : list nat :=
  map snd (listsort (fun p q => (fst p <? fst q)%float)
             (combine (map key bs) (range (length bs)))).

(** The indices of [bs] in the stable order of their keys. *)
Definition sort_index (key : bbox -> float) (bs : list bbox) : list nat :=
  map snd (stable_sort (fun p q => (fst p <? fst q)%float)
             (combine (map key bs) (range (length bs)))).

(** The test of [is_in_ratio] for the float [d] of the image area. *)
Definition in_ratio (d low high : float) (b : bbox) : bool :=
  ((low <=? bbox_area b / d) && (bbox_area b / d <=? high))%float.

(** The areas paired with their indices, sorted as [np.argsort] does. *)
Definition sorted_areas (bs : list bbox) : list (float * nat) :=
  stable_sort (fun p q => np_lt (fst p) (fst q))
    (combine (map bbox_area bs) (range (length bs))).

(** The boxes and the masks of [pred'] are those of [pred] at one list of
    indices, so position [j] of the one goes with position [j] of the
    other. *)
Definition aligned (pred pred' : PredictOutput) : Prop :=
  length (bboxes pred') = length (masks pred') /\
  exists idx,
    picks (bboxes pred) idx (bboxes pred') /\
    picks (masks pred) idx (masks pred').

(** The result has the confidences and the reference image of the input. *)
Definition frame (pred pred' : PredictOutput) : Prop :=
  confidences pred' = confidences pred /\ preview pred' = preview pred.

(** The bitwise OR of the pixels at [(i, j)] of all the masks. *)
Definition or_pixels (ms : list Image) (i j : Z) : Z :=
  fold_left Z.lor (map (fun m => px (im m) i j) ms) 0.

(** Every pixel of the mask is 0 or 255. *)
Definition binary_mask (m : Image) : Prop :=
  forall i j, 0 <= i < ysize m -> 0 <= j < xsize m ->
    px (im m) i j = 0 \/ px (im m) i j = 255.

(** Every pixel of the mask is 0. *)
Definition all_zero (m : Image) : Prop :=
  forall i j, 0 <= i < ysize m -> 0 <= j < xsize m -> px (im m) i j = 0.

(** ** Example data *)

(** A concrete distance for running the sorter on examples: the textbook
    formula.  No statement below depends on it. *)
Definition euclid (p q : float * float) : float :=
  sqrt ((fst p - fst q) * (fst p - fst q) + (snd p - snd q) * (snd p - snd q))%float.

(** The mask of the examples: two rows of three pixels. *)
Definition mask23 : Image :=
  mkImage 3 2 [[0; 255; 255]; [0; 0; 255]].

(** The reference image of the examples: 100 by 100, of which only the
    size is read. *)
Definition preview100 : Image := mkImage 100 100 [].

(** One detection, and its prediction set. *)
Definition pred_single : PredictOutput :=
  mkPredictOutput [mkBbox 0 0 10 10] [mask23] [0.75%float] preview100.

(** Three detections, the first and the last with one left edge, and
    masks that tell them apart. *)
Definition pred_ties : PredictOutput :=
  mkPredictOutput
    [mkBbox 5 5 15 15; mkBbox 0 0 10 10; mkBbox 5 0 15 10]
    [mkImage 1 1 [[1]]; mkImage 1 1 [[2]]; mkImage 1 1 [[3]]]
    [0.75%float; 0.5%float; 0.25%float]
    preview100.

(** A reference image of 16 by 16 and three boxes of ratio 1/4, 1/16
    and 1. *)
Definition pred_ratio : PredictOutput :=
  mkPredictOutput
    [mkBbox 0 0 8 8; mkBbox 0 0 4 4; mkBbox 0 0 16 16]
    [mkImage 1 1 [[1]]; mkImage 1 1 [[2]]; mkImage 1 1 [[3]]]
    [0.75%float; 0.5%float; 0.25%float]
    (mkImage 16 16 []).

(** Seven detections of areas 9, 8, 1, NaN, 5, 10, 5: the fourth box is
    infinitely wide in floats, [2^1023 - (- 2^1023)], and of height 0, so
    that its area is the product of infinity and 0. *)
Definition pred_nan : PredictOutput :=
  mkPredictOutput
    [mkBbox 0 0 9 1; mkBbox 0 0 8 1; mkBbox 0 0 1 1;
     mkBbox (- 0x1p+1023) 0 0x1p+1023 0;
     mkBbox 0 0 5 1; mkBbox 0 0 10 1; mkBbox 1 0 6 1]
    [mkImage 1 1 [[0]]; mkImage 1 1 [[1]]; mkImage 1 1 [[2]]; mkImage 1 1 [[3]];
     mkImage 1 1 [[4]]; mkImage 1 1 [[5]]; mkImage 1 1 [[6]]]
    []
    preview100.

(** * Properties *)

(** ** Rows built by [tabulate] *)

Lemma axis_length n : 0 <= n -> length (axis n) = Z.to_nat n.
Proof. intros _. unfold axis. now rewrite length_map, length_seq. Qed.

Lemma in_axis n i : In i (axis n) <-> 0 <= i < n.
Proof.
  unfold axis. rewrite in_map_iff. split.
  - intros [k [<- Hk]]. apply in_seq in Hk. lia.
  - intros Hi. exists (Z.to_nat i). split; [lia|]. apply in_seq. lia.
Qed.

Lemma nth_axis n i d : 0 <= i < n -> nth (Z.to_nat i) (axis n) d = i.
Proof.
  intros Hi. unfold axis.
  rewrite nth_indep with (d' := Z.of_nat 0) by (rewrite length_map, length_seq; lia).
  rewrite map_nth, seq_nth by lia. lia.
Qed.

Lemma nth_map_axis {A : Type} (f : Z -> A) n i d :
  0 <= i < n -> nth (Z.to_nat i) (map f (axis n)) d = f i.
Proof.
  intros Hi.
  rewrite (nth_indep _ d (f 0)) by (rewrite length_map, axis_length; lia).
  now rewrite (map_nth f), nth_axis.
Qed.

Lemma px_tabulate h w f i j :
  0 <= i < h -> 0 <= j < w -> px (tabulate h w f) i j = f i j.
Proof.
  intros Hi Hj. unfold px, tabulate.
  rewrite (nth_map_axis (fun i => map (fun j => f i j) (axis w))) by lia.
  now rewrite (nth_map_axis (fun j => f i j)).
Qed.

Lemma tabulate_ext h w f g :
  (forall i j, 0 <= i < h -> 0 <= j < w -> f i j = g i j) ->
  tabulate h w f = tabulate h w g.
Proof.
  intros H. unfold tabulate. apply map_ext_in. intros i Hi.
  apply map_ext_in. intros j Hj. apply H; now apply in_axis.
Qed.

(** A list is the table of its elements. *)
Lemma list_as_map_nth {A : Type} (l : list A) (d : A) :
  l = map (fun i => nth (Z.to_nat i) l d) (axis (len l)).
Proof.
  unfold axis, len. rewrite Nat2Z.id, map_map.
  induction l as [|a l IH]; [reflexivity|].
  cbn [length seq map]. f_equal.
  rewrite <- seq_shift, map_map. rewrite IH at 1.
  apply map_ext. intros k. now rewrite !Nat2Z.id.
Qed.

Lemma wf_row_spec w row :
  wf_row w row = true -> len row = w /\ Forall (fun p => 0 <= p < 256) row.
Proof.
  unfold wf_row. rewrite andb_true_iff, Z.eqb_eq, forallb_forall, Forall_forall.
  intros [Hl Hp]. split; [exact Hl|]. intros p Hin. specialize (Hp p Hin). lia.
Qed.

Lemma wf_extent_spec img :
  wf_extent img = true ->
  0 < xsize img < 2 ^ 31 /\ 0 < ysize img < 2 ^ 31.
Proof. unfold wf_extent. rewrite !andb_true_iff, !Z.ltb_lt. tauto. Qed.

Lemma wf_image_spec img :
  wf_image img = true ->
  0 < xsize img /\ 0 < ysize img /\
  im img = tabulate (ysize img) (xsize img) (px (im img)) /\
  (forall i j, 0 <= px (im img) i j < 256).
Proof.
  unfold wf_image. rewrite !andb_true_iff, Z.eqb_eq, forallb_forall.
  intros [[He Hl] Hrows]. apply wf_extent_spec in He.
  split; [lia|]. split; [lia|]. split.
  - unfold tabulate, px. rewrite <- Hl.
    rewrite (list_as_map_nth (im img) []) at 1.
    apply map_ext_in. intros i Hi. apply in_axis in Hi.
    assert (Hin : In (nth (Z.to_nat i) (im img) []) (im img))
      by (apply nth_In; unfold len in Hi; lia).
    apply Hrows, wf_row_spec in Hin. destruct Hin as [Hw _].
    rewrite (list_as_map_nth (nth (Z.to_nat i) (im img) []) 0) at 1.
    now rewrite Hw.
  - intros i j. unfold px.
    destruct (Nat.lt_ge_cases (Z.to_nat i) (length (im img))) as [Hi|Hi].
    + assert (Hin : In (nth (Z.to_nat i) (im img) []) (im img)) by now apply nth_In.
      apply Hrows, wf_row_spec in Hin. destruct Hin as [_ Hp].
      destruct (Nat.lt_ge_cases (Z.to_nat j) (length (nth (Z.to_nat i) (im img) [])))
        as [Hj|Hj].
      * rewrite Forall_forall in Hp. apply Hp. now apply nth_In.
      * rewrite nth_overflow by exact Hj. lia.
    + rewrite (nth_overflow (im img)) by exact Hi. destruct (Z.to_nat j); cbn; lia.
Qed.

(** ** Offset *)

(** The index PIL reads for the output index [y] on an axis of extent [n]
    shifted by [d] is [y - d] modulo [n]. *)
Lemma offset_index n d y :
  0 < n -> 0 <= y < n ->
  Z.rem (y + (if n - Z.rem d n <? 0 then n - Z.rem d n + n else n - Z.rem d n)) n
  = (y - d) mod n.
Proof.
  intros Hn Hy.
  assert (Hr : Z.abs (Z.rem d n) < Z.abs n) by (apply Z.rem_bound_abs; lia).
  assert (Hd : Z.rem d n mod n = d mod n).
  { rewrite (Z.rem_eq d n) by lia.
    replace (d - n * (d ÷ n)) with (d + (- (d ÷ n)) * n) by ring.
    apply Z.mod_add; lia. }
  destruct (Z.ltb_spec (n - Z.rem d n) 0) as [Hneg|Hpos]; [lia|].
  rewrite Z.rem_mod_nonneg by lia.
  replace (y + (n - Z.rem d n)) with ((y - Z.rem d n) + 1 * n) by ring.
  rewrite Z.mod_add by lia.
  rewrite Zminus_mod, Hd, <- Zminus_mod. reflexivity.
Qed.

Lemma ImagingOffset_eq img dx dy :
  0 < xsize img -> 0 < ysize img ->
  ImagingOffset img dx dy =
  mkImage (xsize img) (ysize img)
    (tabulate (ysize img) (xsize img) (fun y x =>
       px (im img) ((y - dy) mod ysize img) ((x - dx) mod xsize img))).
Proof.
  intros Hx Hy. unfold ImagingOffset. cbv zeta. f_equal.
  apply tabulate_ext. intros i j Hi Hj.
  now rewrite !offset_index.
Qed.

Lemma ImagingOffset_zero img :
  wf_image img = true -> ImagingOffset img 0 0 = img.
Proof.
  intros Hwf. destruct (wf_image_spec img Hwf) as (Hx & Hy & Him & _).
  rewrite ImagingOffset_eq by lia.
  destruct img as [w h rows]. cbn [xsize ysize im] in *. f_equal.
  etransitivity; [|symmetry; exact Him]. apply tabulate_ext. intros i j Hi Hj.
  now rewrite !Z.sub_0_r, !Z.mod_small.
Qed.

Lemma ImagingOffset_back img dx dy :
  wf_image img = true ->
  ImagingOffset (ImagingOffset img dx dy) (- dx) (- dy) = img.
Proof.
  intros Hwf. destruct (wf_image_spec img Hwf) as (Hx & Hy & Him & _).
  rewrite (ImagingOffset_eq img) by lia.
  rewrite ImagingOffset_eq by (cbn; lia).
  destruct img as [w h rows]. cbn [xsize ysize im] in *. f_equal.
  etransitivity; [|symmetry; exact Him]. apply tabulate_ext. intros i j Hi Hj.
  rewrite px_tabulate by (split; apply Z.mod_pos_bound; lia).
  rewrite !Zminus_mod_idemp_l.
  replace (i - - dy - dy) with i by ring. replace (j - - dx - dx) with j by ring.
  now rewrite !Z.mod_small.
Qed.

(** [offset] returns exactly when [x] and [-y] fit a C int. *)
Lemma offset_in_range m x y :
  - 2 ^ 31 <= x < 2 ^ 31 -> - 2 ^ 31 < y <= 2 ^ 31 ->
  offset m x y = Ok (ImagingOffset m x (- y)).
Proof.
  intros Hx Hy. unfold offset, ImageChops_offset, c_int.
  destruct (Z.leb_spec (- 2 ^ 31) x); [|lia].
  destruct (Z.ltb_spec x (2 ^ 31)); [|lia].
  destruct (Z.leb_spec (- 2 ^ 31) (- y)); [|lia].
  destruct (Z.ltb_spec (- y) (2 ^ 31)); [|lia].
  reflexivity.
Qed.

Lemma offset_out_of_range m x y :
  x < - 2 ^ 31 \/ 2 ^ 31 <= x \/ y <= - 2 ^ 31 \/ 2 ^ 31 < y ->
  offset m x y = Raise OverflowError.
Proof.
  intros H. unfold offset, ImageChops_offset, c_int.
  destruct (Z.leb_spec (- 2 ^ 31) x); [|reflexivity].
  destruct (Z.ltb_spec x (2 ^ 31)); [|reflexivity].
  destruct (Z.leb_spec (- 2 ^ 31) (- y)); [|reflexivity].
  destruct (Z.ltb_spec (- y) (2 ^ 31)); [|reflexivity].
  lia.
Qed.

(** C6 (as amended): [offset] shifts toroidally.  On every well-formed
    mask a shift by [(0, 0)] is the identity, and for offsets [dx], [dy]
    strictly between [-2^31] and [2^31], which fit a C int together with
    their opposites, the shift by [(dx, dy)] returns a mask, and the shift
    of that mask by [(-dx, -dy)] gives back the mask, pixel for pixel. *)
Theorem offset_toroidal_roundtrip (m : Image) (Hwf : wf_image m = true) :
  offset m 0 0 = Ok m /\
  forall dx dy : Z,
    - 2 ^ 31 < dx < 2 ^ 31 -> - 2 ^ 31 < dy < 2 ^ 31 ->
    exists m',
      offset m dx dy = Ok m' /\
      offset m' (- dx) (- dy) = Ok m.
Proof.
  split.
  - rewrite offset_in_range by lia. f_equal. now apply ImagingOffset_zero.
  - intros dx dy Hdx Hdy. eexists. split; [apply offset_in_range; lia|].
    rewrite offset_in_range by lia. f_equal. rewrite Z.opp_involutive.
    replace dy with (- - dy) at 2 by apply Z.opp_involutive.
    now apply ImagingOffset_back.
Qed.

Lemma offset_toroidal_roundtrip_witness :
  wf_image mask23 = true /\
  offset mask23 0 0 = Ok mask23 /\
  offset mask23 1 1 = Ok (mkImage 3 2 [[255; 0; 0]; [255; 0; 255]]) /\
  exists m',
    offset mask23 1 1 = Ok m' /\ offset m' (- 1) (- 1) = Ok mask23.
Proof.
  pose proof (offset_toroidal_roundtrip mask23 eq_refl) as [H0 Hback].
  split; [reflexivity|]. split; [exact H0|]. split; [reflexivity|].
  apply (Hback 1 1); lia.
Defined.

(** C6, as stated, fails: an offset that does not fit a C int is refused,
    so the shift by [2^31] along x, or by [-2^31] along y, raises
    [OverflowError] and no round trip takes place. *)
Lemma offset_refuses_large_offsets :
  offset mask23 (2 ^ 31) 0 = Raise OverflowError /\
  offset mask23 0 (- 2 ^ 31) = Raise OverflowError.
Proof. split; reflexivity. Qed.

(** ** Dilation and erosion *)

Lemma count_row_cons p row :
  count_row (p :: row) = if p =? 0 then count_row row else 1 + count_row row.
Proof. reflexivity. Qed.

Lemma count_row_le (f g : Z -> Z) (l : list Z) :
  (forall j, In j l -> f j <> 0 -> g j <> 0) ->
  count_row (map f l) <= count_row (map g l).
Proof.
  induction l as [|j l IH]; intros H; [cbn; lia|].
  cbn [map]. rewrite !count_row_cons.
  assert (IH' : count_row (map f l) <= count_row (map g l))
    by (apply IH; intros; apply H; [now right|assumption]).
  specialize (H j (or_introl eq_refl)).
  destruct (Z.eqb_spec (f j) 0), (Z.eqb_spec (g j) 0); lia.
Qed.

Lemma countNonZero_cons row rows :
  countNonZero (row :: rows) = count_row row + countNonZero rows.
Proof. reflexivity. Qed.

Lemma countNonZero_le (F G : Z -> list Z) (l : list Z) :
  (forall i, In i l -> count_row (F i) <= count_row (G i)) ->
  countNonZero (map F l) <= countNonZero (map G l).
Proof.
  induction l as [|i l IH]; intros H; [cbn; lia|].
  cbn [map]. rewrite !countNonZero_cons.
  specialize (IH (fun i Hi => H i (or_intror Hi))).
  specialize (H i (or_introl eq_refl)). lia.
Qed.

Lemma countNonZero_tabulate_le h w f g :
  (forall i j, 0 <= i < h -> 0 <= j < w -> f i j <> 0 -> g i j <> 0) ->
  countNonZero (tabulate h w f) <= countNonZero (tabulate h w g).
Proof.
  intros H. unfold tabulate. apply countNonZero_le. intros i Hi.
  apply count_row_le. intros j Hj. apply H; now apply in_axis.
Qed.

Lemma fold_max_ge l v : In v l -> v <= fold_right Z.max 0 l.
Proof.
  induction l as [|a l IH]; cbn; [tauto|]. intros [->|Hin]; [lia|].
  specialize (IH Hin). lia.
Qed.

Lemma fold_min_le l v : In v l -> fold_right Z.min 255 l <= v.
Proof.
  induction l as [|a l IH]; cbn; [tauto|]. intros [->|Hin]; [lia|].
  specialize (IH Hin). lia.
Qed.

Lemma fold_min_nonneg l : Forall (fun p => 0 <= p) l -> 0 <= fold_right Z.min 255 l.
Proof. induction 1; cbn; lia. Qed.

(** Under a square kernel of ones the pixel itself is read. *)
Lemma under_kernel_self arr value i j :
  0 < value -> 0 <= i < nrows arr -> 0 <= j < ncols arr ->
  In (px (data arr) i j) (under_kernel arr (getStructuringElement_RECT value) i j).
Proof.
  intros Hv Hi Hj. unfold under_kernel. cbn [nrows ncols data getStructuringElement_RECT].
  assert (Hc : 0 <= value / 2 < value)
    by (split; [apply Z.div_pos; lia | apply Z.div_lt_upper_bound; lia]).
  apply in_flat_map. exists (value / 2). split; [now apply in_axis|].
  apply in_flat_map. exists (value / 2). split; [now apply in_axis|].
  rewrite px_tabulate by assumption.
  replace (i + value / 2 - value / 2) with i by ring.
  replace (j + value / 2 - value / 2) with j by ring.
  match goal with
  | |- In _ (if ?c then _ else _) => assert (Hcnd : c = true)
  end.
  { rewrite !andb_true_iff, negb_true_iff, !Z.leb_le, !Z.ltb_lt, Z.eqb_neq. lia. }
  rewrite Hcnd. now left.
Qed.

Lemma under_kernel_pixels arr kernel i j (P : Z -> Prop) :
  (forall y x, P (px (data arr) y x)) ->
  Forall P (under_kernel arr kernel i j).
Proof.
  intros HP. apply Forall_forall. intros v Hin. unfold under_kernel in Hin.
  apply in_flat_map in Hin. destruct Hin as (ki & _ & Hin).
  apply in_flat_map in Hin. destruct Hin as (kj & _ & Hin).
  match type of Hin with In _ (if ?c then _ else _) => destruct c end;
    [destruct Hin as [<-|[]]; apply HP | destruct Hin].
Qed.

(** C9: for every well-formed mask, [dilate_erode] with value 0 returns
    the mask itself; with a positive value the count of nonzero pixels
    does not decrease (dilation does not shrink); with a negative value it
    does not increase (erosion does not grow). *)
Theorem dilate_erode_identity_and_monotone (m : Image) (Hwf : wf_image m = true) :
  dilate_erode m 0 = m /\
  (forall value, 0 < value ->
     nonzero_pixels m <= nonzero_pixels (dilate_erode m value)) /\
  (forall value, value < 0 ->
     nonzero_pixels (dilate_erode m value) <= nonzero_pixels m).
Proof.
  destruct (wf_image_spec m Hwf) as (Hx & Hy & Him & Hpx).
  split; [reflexivity|]. split; intros value Hv; unfold dilate_erode, nonzero_pixels.
  - destruct (Z.eqb_spec value 0) as [?|_]; [lia|].
    destruct (Z.gtb_spec value 0) as [_|?]; [|lia].
    cbn [np_array Image_fromarray _dilate cv2_dilate data nrows ncols].
    rewrite Him at 1. apply countNonZero_tabulate_le. intros i j Hi Hj Hnz.
    pose proof (Hpx i j) as Hb.
    pose proof (fold_max_ge _ _
      (under_kernel_self (np_array m) value i j Hv Hi Hj)) as Hge.
    cbn [np_array data] in Hge. cbn [np_array]. lia.
  - destruct (Z.eqb_spec value 0) as [?|_]; [lia|].
    destruct (Z.gtb_spec value 0) as [?|_]; [lia|].
    cbn [np_array Image_fromarray _erode cv2_erode data nrows ncols].
    rewrite Him at 1. apply countNonZero_tabulate_le. intros i j Hi Hj Hnz.
    assert (Hv' : 0 < - value) by lia.
    pose proof (fold_min_le _ _
      (under_kernel_self (np_array m) (- value) i j Hv' Hi Hj)) as Hle.
    pose proof (fold_min_nonneg _
      (under_kernel_pixels (np_array m) (getStructuringElement_RECT (- value)) i j
         (fun p => 0 <= p) (fun y x => proj1 (Hpx y x)))) as Hnn.
    cbn [np_array data] in Hle, Hnn. cbn [np_array] in Hnz. lia.
Qed.

Lemma dilate_erode_identity_and_monotone_witness :
  wf_image mask23 = true /\
  dilate_erode mask23 0 = mask23 /\
  nonzero_pixels mask23 = 3 /\
  nonzero_pixels (dilate_erode mask23 2) = 4 /\
  nonzero_pixels (dilate_erode mask23 (- 2)) = 1 /\
  nonzero_pixels mask23 <= nonzero_pixels (dilate_erode mask23 2) /\
  nonzero_pixels (dilate_erode mask23 (- 2)) <= nonzero_pixels mask23.
Proof.
  pose proof (dilate_erode_identity_and_monotone mask23 eq_refl) as (H0 & Hd & He).
  split; [reflexivity|]. split; [exact H0|].
  split; [reflexivity|]. split; [reflexivity|]. split; [reflexivity|].
  split; [apply Hd; lia | apply He; lia].
Defined.

(** ** Subtract *)

Lemma map_tabulate h w f (c : Z -> Z) :
  map (map c) (tabulate h w f) = tabulate h w (fun i j => c (f i j)).
Proof.
  unfold tabulate. rewrite map_map. apply map_ext. intros i.
  now rewrite map_map.
Qed.

Lemma bidx_in_range n i : 0 <= i < n -> bidx n i = i.
Proof. unfold bidx. destruct (Z.eqb_spec n 1); lia. Qed.

(** What [subtract_masks] computes on two masks of one extent: the
    difference of the pixels modulo 256, which the clip leaves as it is. *)
Lemma subtract_masks_same_extent mask1 mask2 :
  xsize mask1 = xsize mask2 -> ysize mask1 = ysize mask2 ->
  subtract_masks mask1 mask2 =
  Ok (mkImage (xsize mask1) (ysize mask1)
        (tabulate (ysize mask1) (xsize mask1) (fun i j =>
           (px (im mask1) i j - px (im mask2) i j) mod 256))).
Proof.
  intros Hx Hy. unfold subtract_masks, np_subtract, broadcast_dim.
  cbn [np_array nrows ncols data]. rewrite <- Hx, <- Hy, !Z.eqb_refl.
  cbn [bind]. unfold np_clip, Image_fromarray. cbn [nrows ncols data].
  rewrite map_tabulate. do 2 f_equal. apply tabulate_ext. intros i j Hi Hj.
  rewrite !bidx_in_range by assumption.
  pose proof (Z.mod_pos_bound (px (im mask1) i j - px (im mask2) i j) 256).
  lia.
Qed.

(** C1: on a black pixel and a white pixel [subtract_masks] returns 1, the
    difference modulo 256, where the clamp of the exact difference is 0. *)
Theorem subtract_masks_wraps_around :
  subtract_masks (mkImage 1 1 [[0]]) (mkImage 1 1 [[255]])
    = Ok (mkImage 1 1 [[1]]) /\
  clamp (0 - 255) 0 255 = 0 /\
  is_all_black (mkImage 1 1 [[1]]) = false.
Proof. repeat split. Qed.

(** ** Merge / invert: the degenerate cases and the invalid modes *)

Lemma mask_merge_invert_resolved masks mode n :
  resolves mode n ->
  mask_merge_invert masks mode = mask_merge_invert masks (ModeInt n).
Proof.
  intros [->|(s & -> & Hs)]; [reflexivity|].
  unfold mask_merge_invert. now rewrite Hs.
Qed.

Lemma list_index_absent l s : ~ In s l -> list_index l s = Raise ValueError.
Proof.
  induction l as [|t l IH]; intros Hn; [reflexivity|]. cbn.
  destruct (String.eqb_spec t s) as [->|_]; [exfalso; apply Hn; now left|].
  rewrite IH; [reflexivity|]. intros Hin. apply Hn. now right.
Qed.

Lemma len_zero_iff {A : Type} (l : list A) : (len l =? 0) = true <-> l = [].
Proof.
  unfold len. rewrite Z.eqb_eq. destruct l; cbn; split; intros H;
    try reflexivity; try discriminate; lia.
Qed.

(** C5: [mask_merge_invert] returns its input list unchanged when the mode
    is NONE, when the list is empty (for every recognized mode), and when
    the mode is SUBTRACT and the list does not have exactly two masks. *)
Theorem mask_merge_invert_degenerate (masks : list Image) :
  (forall mode, resolves mode MergeInvert.NONE ->
     mask_merge_invert masks mode = Ok masks) /\
  (forall mode n, resolves mode n -> 0 <= n <= 3 ->
     mask_merge_invert [] mode = Ok []) /\
  (forall mode, resolves mode MergeInvert.SUBTRACT -> length masks <> 2%nat ->
     mask_merge_invert masks mode = Ok masks).
Proof.
  split; [|split].
  - intros mode Hm. rewrite (mask_merge_invert_resolved _ _ _ Hm). reflexivity.
  - intros mode n Hm _. rewrite (mask_merge_invert_resolved _ _ _ Hm).
    unfold mask_merge_invert. cbn. now rewrite orb_true_r.
  - intros mode Hm Hlen. rewrite (mask_merge_invert_resolved _ _ _ Hm).
    unfold mask_merge_invert. cbn [bind].
    destruct (len masks =? 0) eqn:He.
    + reflexivity.
    + cbn. destruct (Z.eqb_spec (len masks) 2) as [H2|_]; [|reflexivity].
      unfold len in H2. lia.
Qed.

Lemma mask_merge_invert_degenerate_witness :
  mask_merge_invert [mask23; mask23; mask23] (ModeStr "None")
    = Ok [mask23; mask23; mask23] /\
  mask_merge_invert [] (ModeStr "Merge and Invert") = Ok [] /\
  mask_merge_invert [mask23; mask23; mask23] (ModeInt MergeInvert.SUBTRACT)
    = Ok [mask23; mask23; mask23].
Proof.
  pose proof (mask_merge_invert_degenerate [mask23; mask23; mask23])
    as (Hnone & Hempty & Hsub).
  split; [|split].
  - apply Hnone. right. exists "None"%string. split; reflexivity.
  - apply (Hempty _ 2); [|lia]. right. exists "Merge and Invert"%string.
    split; reflexivity.
  - apply Hsub; [now left|]. cbn. lia.
Defined.

(** ** Comprehensions over indices *)

Lemma comprehension_getitem {A : Type} (l : list A) idx :
  Forall (fun i => (i < length l)%nat) idx ->
  exists out, comprehension (getitem l) idx = Ok out /\ picks l idx out.
Proof.
  induction 1 as [|i idx Hi _ IH].
  - exists []. split; [reflexivity|constructor].
  - destruct IH as (out & Hout & Hp).
    destruct (nth_error l i) as [a|] eqn:Ha;
      [|apply nth_error_None in Ha; lia].
    exists (a :: out). split.
    + cbn. unfold getitem at 1. rewrite Ha. cbn. now rewrite Hout.
    + now constructor.
Qed.

Lemma picks_length {A : Type} (l : list A) idx out :
  picks l idx out -> length out = length idx.
Proof. intros H. symmetry. exact (Forall2_length H). Qed.

Lemma picks_all {A : Type} (l : list A) : picks l (seq 0 (length l)) l.
Proof.
  unfold picks.
  enough (H : forall pre, Forall2 (fun i a => nth_error (pre ++ l) i = Some a)
                            (seq (length pre) (length l)) l) by exact (H []).
  induction l as [|a l IH]; intros pre; [constructor|].
  cbn [length seq]. constructor.
  - now rewrite nth_error_app2, Nat.sub_diag by lia.
  - specialize (IH (pre ++ [a])). rewrite length_app, <- app_assoc in IH.
    cbn in IH. now rewrite Nat.add_1_r in IH.
Qed.

(** The keys of all the boxes, as the [key] lambdas compute them. *)
Lemma comprehension_keys {A B : Type} (l : list A) (f : A -> B) :
  comprehension (fun i => b <- getitem l i ;; Ok (f b)) (range (length l))
  = Ok (map f l).
Proof.
  unfold range.
  enough (H : forall pre,
    comprehension (fun i => b <- getitem (pre ++ l) i ;; Ok (f b))
      (seq (length pre) (length l)) = Ok (map f l)) by exact (H []).
  induction l as [|a l IH]; intros pre; [reflexivity|].
  cbn [length seq comprehension map]. unfold getitem at 1.
  rewrite nth_error_app2, Nat.sub_diag by lia. cbn.
  specialize (IH (pre ++ [a])). rewrite length_app, <- app_assoc in IH.
  cbn in IH. rewrite Nat.add_1_r in IH. now rewrite IH.
Qed.

(** ** The stable sort *)

Section StableSort.

Context {A : Type} (lt : A -> A -> bool).

Lemma insert_sorted_perm x l : Permutation (insert_sorted lt x l) (x :: l).
Proof.
  induction l as [|y l IH]; cbn; [reflexivity|].
  destruct (lt y x); [|reflexivity].
  rewrite IH. apply perm_swap.
Qed.

Lemma stable_sort_perm l : Permutation (stable_sort lt l) l.
Proof.
  induction l as [|x l IH]; cbn; [reflexivity|].
  rewrite insert_sorted_perm. now constructor.
Qed.

(** Insertion keeps any relation that holds from the new element to the
    rest and from every element strictly below it to it. *)
Lemma insert_sorted_keeps (R : A -> A -> Prop) x l :
  StronglySorted R l ->
  Forall (R x) l ->
  (forall y, In y l -> lt y x = true -> R y x) ->
  StronglySorted R (insert_sorted lt x l).
Proof.
  induction l as [|y l IH]; intros Hs Hx Hlt; cbn.
  - repeat constructor.
  - apply StronglySorted_inv in Hs. destruct Hs as [Hs Hy].
    destruct (lt y x) eqn:Hyx.
    + constructor.
      * apply IH; [exact Hs|now inversion Hx|].
        intros z Hz. apply Hlt. now right.
      * eapply Permutation_Forall; [symmetry; apply insert_sorted_perm|].
        constructor; [apply Hlt; [now left|exact Hyx]|exact Hy].
    + constructor; [now constructor|exact Hx].
Qed.

(** Stability: in the sorted list an element stands before another only
    if it stood before it in the input or is strictly below it. *)
Lemma stable_sort_stable (pos : A -> nat) l :
  StronglySorted (fun a b => (pos a < pos b)%nat) l ->
  StronglySorted (fun a b => (pos a < pos b)%nat \/ lt a b = true)
    (stable_sort lt l).
Proof.
  induction l as [|x l IH]; intros Hs; cbn; [constructor|].
  apply StronglySorted_inv in Hs. destruct Hs as [Hs Hx].
  apply insert_sorted_keeps.
  - now apply IH.
  - eapply Permutation_Forall; [symmetry; apply stable_sort_perm|].
    eapply Forall_impl; [|exact Hx]. intros; now left.
  - intros y _ Hyx. now right.
Qed.

(** Order: for a strict weak order the sorted list is ascending. *)
Hypothesis lt_asym : forall a b, lt a b = true -> lt b a = false.
Hypothesis le_trans :
  forall a b c, lt b a = false -> lt c b = false -> lt c a = false.

Lemma insert_sorted_ascending x s :
  StronglySorted (fun a b => lt b a = false) s ->
  StronglySorted (fun a b => lt b a = false) (insert_sorted lt x s).
Proof.
  induction 1 as [|y s Hs IHs Hy]; cbn.
  - repeat constructor.
  - destruct (lt y x) eqn:Hyx.
    + constructor; [exact IHs|].
      eapply Permutation_Forall; [symmetry; apply insert_sorted_perm|].
      constructor; [now apply lt_asym|exact Hy].
    + constructor; [now constructor|].
      constructor; [exact Hyx|].
      eapply Forall_impl; [|exact Hy]. intros z Hz. cbv beta in *.
      now apply (le_trans x y z).
Qed.

Lemma stable_sort_ascending l :
  StronglySorted (fun a b => lt b a = false) (stable_sort lt l).
Proof.
  induction l as [|x l IH]; cbn; [constructor|].
  now apply insert_sorted_ascending.
Qed.

End StableSort.

Lemma StronglySorted_nth {A : Type} (R : A -> A -> Prop) l :
  StronglySorted R l ->
  forall p q a b, (p < q)%nat ->
    nth_error l p = Some a -> nth_error l q = Some b -> R a b.
Proof.
  induction 1 as [|x l Hs IH Hx]; intros p q a b Hpq Hp Hq.
  - destruct p; discriminate.
  - destruct q as [|q]; [lia|]. destruct p as [|p]; cbn in Hp, Hq.
    + injection Hp as <-. rewrite Forall_forall in Hx.
      apply Hx. eapply nth_error_In, Hq.
    + apply (IH p q); [lia|assumption|assumption].
Qed.

Lemma StronglySorted_map {A B : Type} (f : A -> B) (R : B -> B -> Prop) l :
  StronglySorted (fun a b => R (f a) (f b)) l -> StronglySorted R (map f l).
Proof.
  induction 1 as [|x l Hs IH Hx]; cbn; constructor; [exact IH|].
  now apply Forall_map.
Qed.

Lemma StronglySorted_split {A : Type} (R : A -> A -> Prop) n l :
  StronglySorted R l ->
  StronglySorted R (skipn n l) /\
  forall a b, In a (firstn n l) -> In b (skipn n l) -> R a b.
Proof.
  intros Hs. revert n. induction Hs as [|x l Hs IH Hx]; intros n.
  - rewrite skipn_nil, firstn_nil. split; [constructor|intros a b []].
  - destruct n as [|n]; cbn [firstn skipn].
    + split; [now constructor|intros a b []].
    + destruct (IH n) as [Hsk Hfs]. split; [exact Hsk|].
      intros a b [<-|Ha] Hb.
      * rewrite Forall_forall in Hx. apply Hx.
        rewrite <- (firstn_skipn n l). apply in_or_app. now right.
      * now apply Hfs.
Qed.

Lemma StronglySorted_weaken {A : Type} (R S : A -> A -> Prop) l :
  (forall a b, R a b -> S a b) -> StronglySorted R l -> StronglySorted S l.
Proof.
  intros HRS. induction 1 as [|x l Hs IH Hx]; constructor; [exact IH|].
  eapply Forall_impl; [|exact Hx]. intros; now apply HRS.
Qed.

Lemma nth_error_map_inv {A B : Type} (f : A -> B) l n b :
  nth_error (map f l) n = Some b ->
  exists a, nth_error l n = Some a /\ f a = b.
Proof.
  rewrite nth_error_map. destruct (nth_error l n) as [a|]; [|discriminate].
  cbn. intros [= <-]. now exists a.
Qed.

(** Pairing with the indices: every pair holds an element at its index. *)
Lemma in_combine_range {A : Type} (l : list A) a i :
  In (a, i) (combine l (range (length l))) -> nth_error l i = Some a.
Proof.
  unfold range.
  enough (H : forall pre, In (a, i) (combine l (seq (length pre) (length l))) ->
                          nth_error (pre ++ l) i = Some a) by exact (H []).
  induction l as [|b l IH]; intros pre Hin; [destruct Hin|].
  cbn in Hin. destruct Hin as [Heq|Hin].
  - injection Heq as -> <-. now rewrite nth_error_app2, Nat.sub_diag by lia.
  - specialize (IH (pre ++ [b])). rewrite length_app, <- app_assoc in IH.
    cbn in IH. rewrite Nat.add_1_r in IH. now apply IH.
Qed.

Lemma combine_range_sorted {A : Type} (l : list A) :
  StronglySorted (fun a b : A * nat => (snd a < snd b)%nat)
    (combine l (range (length l))).
Proof.
  unfold range. generalize 0%nat.
  induction l as [|a l IH]; intros s; cbn; constructor; [apply IH|].
  apply Forall_forall. intros [b j] Hin. apply in_combine_r in Hin.
  apply in_seq in Hin. cbn. lia.
Qed.

Lemma map_snd_combine_range {A : Type} (l : list A) :
  map snd (combine l (range (length l))) = range (length l).
Proof.
  unfold range. generalize 0%nat.
  induction l as [|a l IH]; intros s; cbn; [reflexivity|]. now rewrite IH.
Qed.

(** ** The order of floats *)

Ltac sf_cases :=
  unfold sf_lt, SFltb, SFeqb, SFleb, SFcompare;
  repeat match goal with
  | x : spec_float |- _ => destruct x as [[|]|[|]| |[|] ? ?]
  end; cbn; try reflexivity; try discriminate; try tauto;
  repeat match goal with
  | |- context [Z.compare ?a ?b] => destruct (Z.compare_spec a b)
  | |- context [Pos.compare_cont Eq ?a ?b] =>
      change (Pos.compare_cont Eq a b) with (Pos.compare a b);
      destruct (Pos.compare_spec a b)
  end; cbn; try reflexivity; try discriminate; try tauto; try lia.

Lemma sf_lt_asym a b : sf_lt a b = true -> sf_lt b a = false.
Proof. sf_cases. Qed.

Lemma sf_le_trans a b c :
  sf_lt b a = false -> sf_lt c b = false -> sf_lt c a = false.
Proof. sf_cases. Qed.

Lemma sf_eqb_not_ltb a b : SFeqb a b = true -> SFltb a b = false.
Proof. sf_cases. Qed.

Lemma sf_le_iff a b :
  sf_lt b a = false <-> (SFleb a b = true \/ SFeqb b b = false).
Proof. sf_cases. Qed.

Lemma np_lt_spec a b : np_lt a b = sf_lt (Prim2SF a) (Prim2SF b).
Proof.
  unfold np_lt, sf_lt, is_nan. rewrite ltb_spec, !eqb_spec.
  now rewrite negb_involutive.
Qed.

(** Equal keys are not strictly ordered. *)
Lemma float_eqb_not_ltb (a b : float) :
  (a =? b)%float = true -> (a <? b)%float = false.
Proof. rewrite eqb_spec, ltb_spec. apply sf_eqb_not_ltb. Qed.

Lemma np_lt_asym a b : np_lt a b = true -> np_lt b a = false.
Proof. rewrite !np_lt_spec. apply sf_lt_asym. Qed.

Lemma np_le_trans a b c :
  np_lt b a = false -> np_lt c b = false -> np_lt c a = false.
Proof. rewrite !np_lt_spec. apply sf_le_trans. Qed.

Lemma area_le_iff a b : np_lt b a = false <-> area_le a b.
Proof.
  unfold area_le, is_nan. rewrite np_lt_spec, leb_spec, eqb_spec, negb_true_iff.
  apply sf_le_iff.
Qed.

Lemma np_lt_no_nan a b : is_nan b = false -> np_lt a b = (a <? b)%float.
Proof. intros Hb. unfold np_lt. rewrite Hb. cbn. apply orb_false_r. Qed.

(** ** [list.sort] *)

Lemma run_ascending_le {A : Type} (lt : A -> A -> bool) prev l :
  (run_ascending lt prev l <= length l)%nat.
Proof.
  revert prev. induction l as [|x l IH]; intros prev; cbn; [lia|].
  destruct (lt x prev); [lia|]. specialize (IH x). lia.
Qed.

Lemma run_descending_le {A : Type} (lt : A -> A -> bool) prev l :
  (run_descending lt prev l <= length l)%nat.
Proof.
  revert prev. induction l as [|x l IH]; intros prev; cbn; [lia|].
  destruct (lt x prev); [|lia]. specialize (IH x). lia.
Qed.

(** The run of [count_run], read from the first element on. *)
Lemma count_run_cons {A : Type} (lt : A -> A -> bool) a l :
  count_run lt (a :: l) =
  match l with
  | [] => (1%nat, false)
  | b :: _ =>
      if lt b a then (S (run_descending lt a l), true)
      else (S (run_ascending lt a l), false)
  end.
Proof.
  destruct l as [|b l]; [reflexivity|]. cbn. now destruct (lt b a).
Qed.

Lemma binary_insert_perm {A : Type} (lt : A -> A -> bool) a pivot :
  Permutation (binary_insert lt a pivot) (pivot :: a).
Proof.
  unfold binary_insert. rewrite <- Permutation_middle.
  now rewrite firstn_skipn.
Qed.

Lemma binarysort_perm {A : Type} (lt : A -> A -> bool) rest a :
  Permutation (binarysort lt a rest) (a ++ rest).
Proof.
  unfold binarysort. revert a. induction rest as [|x rest IH]; intros a; cbn.
  - now rewrite app_nil_r.
  - rewrite IH, binary_insert_perm. cbn. apply Permutation_middle.
Qed.

Lemma listsort_perm {A : Type} (lt : A -> A -> bool) l :
  Permutation (listsort lt l) l.
Proof.
  unfold listsort. destruct (length l <? 2)%nat; [reflexivity|].
  destruct (length l <? 64)%nat; [|apply stable_sort_perm].
  destruct (count_run lt l) as [n descending].
  rewrite binarysort_perm.
  transitivity (firstn n l ++ skipn n l); [|now rewrite firstn_skipn].
  apply Permutation_app_tail. destruct descending; [|reflexivity].
  symmetry. apply Permutation_rev.
Qed.

(** Two comparisons that agree on the elements sort alike. *)
Lemma run_ascending_ext {A : Type} (lt lt' : A -> A -> bool) prev l :
  (forall x y, In x (prev :: l) -> In y (prev :: l) -> lt x y = lt' x y) ->
  run_ascending lt prev l = run_ascending lt' prev l.
Proof.
  revert prev. induction l as [|x l IH]; intros prev H; [reflexivity|]. cbn.
  rewrite (H x prev) by (cbn; tauto). destruct (lt' x prev); [reflexivity|].
  f_equal. apply IH. intros u v Hu Hv. apply H; now right.
Qed.

Lemma run_descending_ext {A : Type} (lt lt' : A -> A -> bool) prev l :
  (forall x y, In x (prev :: l) -> In y (prev :: l) -> lt x y = lt' x y) ->
  run_descending lt prev l = run_descending lt' prev l.
Proof.
  revert prev. induction l as [|x l IH]; intros prev H; [reflexivity|]. cbn.
  rewrite (H x prev) by (cbn; tauto). destruct (lt' x prev); [|reflexivity].
  f_equal. apply IH. intros u v Hu Hv. apply H; now right.
Qed.

Lemma count_run_ext {A : Type} (lt lt' : A -> A -> bool) l :
  (forall x y, In x l -> In y l -> lt x y = lt' x y) ->
  count_run lt l = count_run lt' l.
Proof.
  intros H. destruct l as [|a l]; [reflexivity|]. rewrite !count_run_cons.
  destruct l as [|b l]; [reflexivity|].
  rewrite (H b a) by (cbn; tauto).
  now rewrite (run_descending_ext lt lt'), (run_ascending_ext lt lt').
Qed.

Lemma bisect_S {A : Type} (lt : A -> A -> bool) fuel pivot a l r :
  bisect (S fuel) lt pivot a l r =
  if (l <? r)%nat then
    if lt pivot (nth (l + (r - l) / 2) a pivot)
    then bisect fuel lt pivot a l (l + (r - l) / 2)
    else bisect fuel lt pivot a (S (l + (r - l) / 2)) r
  else l.
Proof. reflexivity. Qed.

Lemma bisect_ext {A : Type} (lt lt' : A -> A -> bool) fuel pivot a l r :
  (forall y, In y a -> lt pivot y = lt' pivot y) ->
  lt pivot pivot = lt' pivot pivot ->
  bisect fuel lt pivot a l r = bisect fuel lt' pivot a l r.
Proof.
  intros H Hp. revert l r. induction fuel as [|fuel IH]; intros l r; [reflexivity|].
  rewrite !bisect_S. destruct (l <? r)%nat; [|reflexivity].
  assert (Hn : lt pivot (nth (l + (r - l) / 2) a pivot)
               = lt' pivot (nth (l + (r - l) / 2) a pivot)).
  { destruct (nth_in_or_default (l + (r - l) / 2) a pivot) as [Hin| ->];
      [now apply H|exact Hp]. }
  rewrite Hn. now rewrite !IH.
Qed.

Lemma binarysort_ext {A : Type} (lt lt' : A -> A -> bool) rest a :
  (forall x y, In x (a ++ rest) -> In y (a ++ rest) -> lt x y = lt' x y) ->
  binarysort lt a rest = binarysort lt' a rest.
Proof.
  unfold binarysort. revert a. induction rest as [|x rest IH]; intros a H;
    [reflexivity|].
  cbn [fold_left].
  assert (Hb : binary_insert lt a x = binary_insert lt' a x).
  { unfold binary_insert. rewrite (bisect_ext lt lt'); [reflexivity| |].
    - intros y Hy. apply H; apply in_or_app; [right; now left|now left].
    - apply H; apply in_or_app; right; now left. }
  rewrite Hb. apply IH. intros u v Hu Hv.
  assert (Hsub : forall w, In w (binary_insert lt' a x ++ rest) ->
                           In w (a ++ x :: rest)).
  { intros w Hw. apply in_app_or in Hw. apply in_or_app.
    destruct Hw as [Hw|Hw]; [|right; now right].
    eapply Permutation_in in Hw; [|apply binary_insert_perm].
    destruct Hw as [<-|Hw]; [right; now left|now left]. }
  apply H; now apply Hsub.
Qed.

Lemma insert_sorted_ext {A : Type} (lt lt' : A -> A -> bool) x l :
  (forall y, In y l -> lt y x = lt' y x) ->
  insert_sorted lt x l = insert_sorted lt' x l.
Proof.
  induction l as [|y l IH]; intros H; [reflexivity|]. cbn.
  rewrite (H y) by now left. destruct (lt' y x); [|reflexivity].
  f_equal. apply IH. intros z Hz. apply H. now right.
Qed.

Lemma stable_sort_ext {A : Type} (lt lt' : A -> A -> bool) l :
  (forall a b, In a l -> In b l -> lt a b = lt' a b) ->
  stable_sort lt l = stable_sort lt' l.
Proof.
  induction l as [|x l IH]; intros H; [reflexivity|]. cbn.
  fold (stable_sort lt l). fold (stable_sort lt' l).
  rewrite IH by (intros a b Ha Hb; apply H; now right).
  apply insert_sorted_ext. intros y Hy. apply H; [right|now left].
  eapply Permutation_in; [apply stable_sort_perm|exact Hy].
Qed.

Lemma listsort_ext {A : Type} (lt lt' : A -> A -> bool) l :
  (forall x y, In x l -> In y l -> lt x y = lt' x y) ->
  listsort lt l = listsort lt' l.
Proof.
  intros H. unfold listsort. destruct (length l <? 2)%nat; [reflexivity|].
  destruct (length l <? 64)%nat; [|now apply stable_sort_ext].
  rewrite (count_run_ext lt lt' l H). destruct (count_run lt' l) as [n d].
  apply binarysort_ext. intros x y Hx Hy.
  assert (Hsub : forall w, In w ((if d then rev (firstn n l) else firstn n l)
                                 ++ skipn n l) -> In w l).
  { intros w Hw. rewrite <- (firstn_skipn n l). apply in_app_or in Hw.
    apply in_or_app. destruct Hw as [Hw|Hw]; [left|now right].
    destruct d; [now apply in_rev|exact Hw]. }
  apply H; now apply Hsub.
Qed.

Lemma StronglySorted_app {A : Type} (R : A -> A -> Prop) l1 l2 :
  StronglySorted R l1 -> StronglySorted R l2 ->
  (forall a b, In a l1 -> In b l2 -> R a b) ->
  StronglySorted R (l1 ++ l2).
Proof.
  induction 1 as [|x l1 Hs IH Hx]; intros H2 Hc; [exact H2|].
  cbn. constructor.
  - apply IH; [exact H2|]. intros a b Ha Hb. apply Hc; [now right|exact Hb].
  - apply Forall_app. split; [exact Hx|].
    apply Forall_forall. intros b Hb. apply Hc; [now left|exact Hb].
Qed.

Lemma StronglySorted_rev {A : Type} (R : A -> A -> Prop) l :
  StronglySorted R l -> StronglySorted (fun a b => R b a) (rev l).
Proof.
  induction 1 as [|x l Hs IH Hx]; cbn; [constructor|].
  apply StronglySorted_app; [exact IH|repeat constructor|].
  intros a b Ha [<-|[]]. rewrite Forall_forall in Hx. apply Hx. now apply in_rev.
Qed.

Lemma StronglySorted_firstn {A : Type} (R : A -> A -> Prop) n l :
  StronglySorted R l -> StronglySorted R (firstn n l).
Proof.
  intros Hs. revert n. induction Hs as [|x l Hs IH Hx]; intros n.
  - rewrite firstn_nil. constructor.
  - destruct n as [|n]; cbn; constructor; [apply IH|].
    apply Forall_forall. intros y Hy. rewrite Forall_forall in Hx. apply Hx.
    rewrite <- (firstn_skipn n l). apply in_or_app. now left.
Qed.

Lemma StronglySorted_conj {A : Type} (R S : A -> A -> Prop) l :
  StronglySorted R l -> StronglySorted S l ->
  StronglySorted (fun a b => R a b /\ S a b) l.
Proof.
  induction 1 as [|x l Hs IH Hx]; intros HS; [constructor|].
  apply StronglySorted_inv in HS. destruct HS as [HS HSx].
  constructor; [now apply IH|].
  rewrite Forall_forall in *. intros y Hy. split; [now apply Hx|now apply HSx].
Qed.

Lemma Forall_firstn_nth {A : Type} (P : A -> Prop) (l : list A) d k :
  (k <= length l)%nat ->
  (forall i, (i < k)%nat -> P (nth i l d)) -> Forall P (firstn k l).
Proof.
  revert k. induction l as [|x l IH]; intros k Hk H.
  - rewrite firstn_nil. constructor.
  - destruct k as [|k]; cbn; constructor.
    + apply (H 0%nat). lia.
    + apply IH; [cbn in Hk; lia|]. intros i Hi. apply (H (S i)). lia.
Qed.

Lemma Forall_skipn_nth {A : Type} (P : A -> Prop) (l : list A) d k :
  (forall i, (k <= i < length l)%nat -> P (nth i l d)) -> Forall P (skipn k l).
Proof.
  revert k. induction l as [|x l IH]; intros k H.
  - rewrite skipn_nil. constructor.
  - destruct k as [|k]; cbn [skipn].
    + constructor.
      * apply (H 0%nat). cbn. lia.
      * apply (IH 0%nat). intros i Hi. apply (H (S i)). cbn. lia.
    + apply IH. intros i Hi. apply (H (S i)). cbn. lia.
Qed.

Section ListSort.

Context {A : Type} (lt : A -> A -> bool) (pos : A -> nat).

(** [lt] is a strict weak order. *)
Hypothesis lt_asym : forall a b, lt a b = true -> lt b a = false.
Hypothesis le_trans :
  forall a b c, lt b a = false -> lt c b = false -> lt c a = false.

Let le (a b : A) : Prop := lt b a = false.
Let before (a b : A) : Prop := (pos a < pos b)%nat \/ lt a b = true.

Lemma lt_irreflexive a : lt a a = false.
Proof.
  destruct (lt a a) eqn:H; [|reflexivity].
  pose proof (lt_asym a a H). congruence.
Qed.

Lemma lt_le_transitive a b c : lt a b = true -> lt c b = false -> lt a c = true.
Proof.
  intros Hab Hcb. destruct (lt a c) eqn:Hac; [reflexivity|].
  rewrite (le_trans b c a Hcb Hac) in Hab. discriminate.
Qed.

Lemma le_lt_transitive a b c : lt b a = false -> lt b c = true -> lt a c = true.
Proof.
  intros Hba Hbc. destruct (lt a c) eqn:Hac; [reflexivity|].
  rewrite (le_trans c a b Hac Hba) in Hbc. discriminate.
Qed.

Lemma lt_transitive a b c : lt a b = true -> lt b c = true -> lt a c = true.
Proof.
  intros Hab Hbc. apply (le_lt_transitive a b c); [now apply lt_asym|exact Hbc].
Qed.

Lemma run_ascending_sorted prev l :
  StronglySorted le (prev :: firstn (run_ascending lt prev l) l).
Proof.
  revert prev. induction l as [|x l IH]; intros prev; cbn.
  - repeat constructor.
  - destruct (lt x prev) eqn:Hx; cbn; [repeat constructor|].
    specialize (IH x). constructor; [exact IH|].
    apply StronglySorted_inv in IH. destruct IH as [_ IHx].
    constructor; [exact Hx|].
    eapply Forall_impl; [|exact IHx]. intros z Hz. exact (le_trans prev x z Hx Hz).
Qed.

Lemma run_descending_sorted prev l :
  StronglySorted (fun a b => lt b a = true)
    (prev :: firstn (run_descending lt prev l) l).
Proof.
  revert prev. induction l as [|x l IH]; intros prev; cbn.
  - repeat constructor.
  - destruct (lt x prev) eqn:Hx; cbn; [|repeat constructor].
    specialize (IH x). constructor; [exact IH|].
    apply StronglySorted_inv in IH. destruct IH as [_ IHx].
    constructor; [exact Hx|].
    eapply Forall_impl; [|exact IHx]. intros z Hz. exact (lt_transitive z x prev Hz Hx).
Qed.

(** The binary search finds the place after the last element that is not
    above the pivot. *)
Lemma bisect_spec pivot a :
  StronglySorted le a ->
  forall fuel l r,
    (l <= r <= length a)%nat -> (r - l <= fuel)%nat ->
    (forall i, (i < l)%nat -> lt pivot (nth i a pivot) = false) ->
    (forall i, (r <= i < length a)%nat -> lt pivot (nth i a pivot) = true) ->
    let k := bisect fuel lt pivot a l r in
    (k <= length a)%nat /\
    (forall i, (i < k)%nat -> lt pivot (nth i a pivot) = false) /\
    (forall i, (k <= i < length a)%nat -> lt pivot (nth i a pivot) = true).
Proof.
  intros Hs.
  assert (Hnth : forall i j, (i < j < length a)%nat ->
                   le (nth i a pivot) (nth j a pivot)).
  { intros i j Hij.
    apply (StronglySorted_nth le a Hs i j); [lia| |];
      apply nth_error_nth'; lia. }
  induction fuel as [|fuel IH]; intros l r Hlr Hfuel Hlo Hhi.
  - cbn. assert (l = r) by lia. subst r. split; [lia|]. split; assumption.
  - rewrite bisect_S. destruct (Nat.ltb_spec l r) as [Hlt|Hge].
    + assert (Hp : (l <= l + (r - l) / 2 < r)%nat).
      { pose proof (Nat.div_lt (r - l) 2). lia. }
      set (p := (l + (r - l) / 2)%nat) in *.
      destruct (lt pivot (nth p a pivot)) eqn:Hcmp.
      * apply IH; [lia|lia|exact Hlo|].
        intros i Hi. destruct (Nat.eq_dec i p) as [->|Hne]; [exact Hcmp|].
        destruct (Nat.lt_ge_cases i r) as [Hir|Hir]; [|apply Hhi; lia].
        apply (lt_le_transitive pivot (nth p a pivot)); [exact Hcmp|].
        apply Hnth. lia.
      * apply IH; [lia|lia| |exact Hhi].
        intros i Hi. destruct (Nat.eq_dec i p) as [->|Hne]; [exact Hcmp|].
        destruct (Nat.lt_ge_cases i l) as [Hil|Hil]; [now apply Hlo|].
        assert (Hle : le (nth i a pivot) (nth p a pivot)) by (apply Hnth; lia).
        exact (le_trans _ _ _ Hle Hcmp).
    + assert (l = r) by lia. subst r. split; [lia|]. split; assumption.
Qed.

Lemma binary_insert_sorted a pivot :
  StronglySorted le a -> StronglySorted before a ->
  Forall (fun y => (pos y < pos pivot)%nat) a ->
  StronglySorted le (binary_insert lt a pivot) /\
  StronglySorted before (binary_insert lt a pivot).
Proof.
  intros Hle Hbefore Hpos. unfold binary_insert.
  destruct (bisect_spec pivot a Hle (length a) 0 (length a))
    as (Hk & Hlo & Hhi); [lia|lia|intros; lia|intros; lia|].
  set (k := bisect (length a) lt pivot a 0 (length a)) in *.
  pose proof (Forall_firstn_nth (fun y => lt pivot y = false) a pivot k Hk Hlo) as Hf.
  pose proof (Forall_skipn_nth (fun y => lt pivot y = true) a pivot k Hhi) as Hsk.
  destruct (StronglySorted_split le k a Hle) as [Hle2 Hlec].
  destruct (StronglySorted_split before k a Hbefore) as [Hb2 Hbc].
  rewrite Forall_forall in Hf, Hsk, Hpos.
  split; apply StronglySorted_app.
  - now apply StronglySorted_firstn.
  - constructor; [exact Hle2|]. apply Forall_forall. intros y Hy.
    apply lt_asym. now apply Hsk.
  - intros x y Hx [<-|Hy]; [now apply Hf|now apply Hlec].
  - now apply StronglySorted_firstn.
  - constructor; [exact Hb2|]. apply Forall_forall. intros y Hy.
    right. now apply Hsk.
  - intros x y Hx [<-|Hy]; [|now apply Hbc].
    left. apply Hpos. rewrite <- (firstn_skipn k a). apply in_or_app. now left.
Qed.

Lemma binarysort_sorted rest a :
  StronglySorted le a -> StronglySorted before a ->
  StronglySorted (fun x y => (pos x < pos y)%nat) rest ->
  (forall x y, In x a -> In y rest -> (pos x < pos y)%nat) ->
  StronglySorted le (binarysort lt a rest) /\
  StronglySorted before (binarysort lt a rest).
Proof.
  unfold binarysort. revert a.
  induction rest as [|x rest IH]; intros a Hle Hbefore Hrest Hcross; cbn.
  - now split.
  - apply StronglySorted_inv in Hrest. destruct Hrest as [Hrest Hx].
    destruct (binary_insert_sorted a x Hle Hbefore) as [Hle' Hb'].
    { apply Forall_forall. intros y Hy. apply Hcross; [exact Hy|now left]. }
    apply IH; [exact Hle'|exact Hb'|exact Hrest|].
    intros u v Hu Hv. eapply Permutation_in in Hu; [|apply binary_insert_perm].
    destruct Hu as [<-|Hu].
    + rewrite Forall_forall in Hx. now apply Hx.
    + apply Hcross; [exact Hu|now right].
Qed.

(** The sorted list ascends, and an element stands before another only if
    it stood before it in the input or is strictly below it. *)
Lemma listsort_sorted l :
  (length l < 64)%nat ->
  StronglySorted (fun x y => (pos x < pos y)%nat) l ->
  StronglySorted le (listsort lt l) /\ StronglySorted before (listsort lt l).
Proof.
  intros Hshort Hl. unfold listsort.
  destruct (Nat.ltb_spec (length l) 2) as [Hlen|Hlen].
  { destruct l as [|a [|b l]]; cbn in Hlen; try lia;
      split; repeat constructor. }
  destruct (Nat.ltb_spec (length l) 64) as [_|?]; [|lia].
  destruct l as [|a l]; [cbn in Hlen; lia|].
  rewrite count_run_cons. destruct l as [|b l]; [cbn in Hlen; lia|].
  destruct (StronglySorted_inv Hl) as [Hl' Ha].
  destruct (lt b a) eqn:Hba.
  - set (n := run_descending lt a (b :: l)).
    pose proof (run_descending_sorted a (b :: l)) as Hrun. fold n in Hrun.
    destruct (StronglySorted_split _ (S n) (a :: b :: l) Hl) as [Hrest Hcross].
    apply binarysort_sorted.
    + apply StronglySorted_rev in Hrun. cbn [firstn].
      eapply StronglySorted_weaken; [|exact Hrun].
      intros x y Hxy. now apply lt_asym.
    + apply StronglySorted_rev in Hrun. cbn [firstn].
      eapply StronglySorted_weaken; [|exact Hrun].
      intros x y Hxy. now right.
    + exact Hrest.
    + intros x y Hx Hy. apply Hcross; [|exact Hy]. now apply in_rev.
  - set (n := run_ascending lt a (b :: l)).
    pose proof (run_ascending_sorted a (b :: l)) as Hrun. fold n in Hrun.
    destruct (StronglySorted_split _ (S n) (a :: b :: l) Hl) as [Hrest Hcross].
    apply binarysort_sorted.
    + exact Hrun.
    + eapply StronglySorted_weaken;
        [|apply (StronglySorted_firstn _ (S n) (a :: b :: l) Hl)].
      intros x y Hxy. now left.
    + exact Hrest.
    + exact Hcross.
Qed.

(** There is one list only that holds the elements, ascends, and keeps
    the elements that are not strictly ordered in the order of [pos]. *)
Lemma stable_sorted_unique l1 l2 :
  Permutation l1 l2 ->
  StronglySorted le l1 -> StronglySorted before l1 ->
  StronglySorted le l2 -> StronglySorted before l2 ->
  l1 = l2.
Proof.
  intros Hperm Hle1 Hb1 Hle2 Hb2.
  pose proof (StronglySorted_conj _ _ _ Hle1 Hb1) as H1.
  pose proof (StronglySorted_conj _ _ _ Hle2 Hb2) as H2.
  clear Hle1 Hb1 Hle2 Hb2. revert l2 Hperm H2.
  induction H1 as [|x l1 Hs1 IH Hx]; intros l2 Hperm H2.
  - apply Permutation_nil in Hperm. now subst.
  - destruct H2 as [|y l2 Hs2 Hy].
    + symmetry in Hperm. apply Permutation_nil in Hperm. discriminate.
    + rewrite Forall_forall in Hx, Hy.
      assert (Hxy : x = y).
      { assert (Hx2 : In x (y :: l2))
          by (eapply Permutation_in; [exact Hperm|now left]).
        assert (Hy1 : In y (x :: l1))
          by (eapply Permutation_in; [symmetry; exact Hperm|now left]).
        destruct Hx2 as [->|Hx2]; [reflexivity|].
        destruct Hy1 as [->|Hy1]; [reflexivity|].
        destruct (Hx y Hy1) as [Hle1 Hb1]. destruct (Hy x Hx2) as [Hle2 Hb2].
        unfold le, before in *.
        destruct Hb1 as [Hp1|Hlt1]; [|congruence].
        destruct Hb2 as [Hp2|Hlt2]; [lia|congruence]. }
      subst y. f_equal. apply IH; [|exact Hs2].
      now apply Permutation_cons_inv in Hperm.
Qed.

(** On a strict weak order [list.sort] is the stable sort. *)
Lemma listsort_stable_sort l :
  StronglySorted (fun x y => (pos x < pos y)%nat) l ->
  listsort lt l = stable_sort lt l.
Proof.
  intros Hl. destruct (Nat.lt_ge_cases (length l) 64) as [Hshort|Hlong].
  - destruct (listsort_sorted l Hshort Hl) as [Hle Hb].
    apply stable_sorted_unique; [| assumption | assumption | |].
    + rewrite listsort_perm. symmetry. apply stable_sort_perm.
    + now apply stable_sort_ascending.
    + now apply stable_sort_stable.
  - unfold listsort.
    destruct (Nat.ltb_spec (length l) 2); [lia|].
    destruct (Nat.ltb_spec (length l) 64); [lia|reflexivity].
Qed.

End ListSort.

(** ** The sorter *)

Lemma in_combine_map_key {A : Type} (key : A -> float) (bs : list A) a i :
  In (a, i) (combine (map key bs) (range (length bs))) ->
  exists b, nth_error bs i = Some b /\ a = key b.
Proof.
  intros Hin. rewrite <- (length_map key bs) in Hin.
  apply in_combine_range in Hin. rewrite nth_error_map in Hin.
  destruct (nth_error bs i) as [b|]; [|discriminate].
  cbn in Hin. injection Hin as <-. now exists b.
Qed.


Lemma float_of_int_small n :
  Z.abs n < 2 ^ 62 ->
  float_of_int n = Ok (SF2Prim (binary_normalize prec emax n 0 false)).
Proof.
  intros Hn. unfold float_of_int.
  assert (Hc : 2 ^ 62 < 2 ^ 1024 - 2 ^ 970) by (vm_compute; reflexivity).
  destruct (Z.ltb_spec (Z.abs n) (2 ^ 1024 - 2 ^ 970)) as [_|Hge]; [reflexivity|].
  exfalso. apply (Z.lt_irrefl (2 ^ 62)).
  eapply Z.lt_le_trans; [exact Hc|]. eapply Z.le_trans; [exact Hge|].
  now apply Z.lt_le_incl.
Qed.

Lemma int_truediv_2 n :
  Z.abs n < 2 ^ 31 -> exists c, int_truediv n 2 = Ok c.
Proof.
  intros Hn. unfold int_truediv. rewrite (float_of_int_small n) by lia.
  eexists. reflexivity.
Qed.

Lemma key_for_exists dist pred order :
  wf_extent (preview pred) = true -> 1 <= order <= 3 ->
  exists key, key_for dist pred order key.
Proof.
  intros Hwf Ho. apply wf_extent_spec in Hwf. destruct Hwf as [Hx Hy].
  assert (Hc : order = 1 \/ order = 2 \/ order = 3) by lia.
  destruct Hc as [->|[->| ->]].
  - eexists. left. split; reflexivity.
  - destruct (int_truediv_2 (xsize (preview pred))) as [cx Hcx]; [lia|].
    destruct (int_truediv_2 (ysize (preview pred))) as [cy Hcy]; [lia|].
    eexists. right. left. split; [reflexivity|]. exists cx, cy. repeat split; eassumption.
  - eexists. right. right. split; reflexivity.
Qed.

Lemma sort_index_perm key bs :
  Permutation (sort_index key bs) (range (length bs)).
Proof.
  unfold sort_index.
  rewrite stable_sort_perm.
  rewrite <- (length_map key bs) at 1. rewrite map_snd_combine_range.
  now rewrite length_map.
Qed.

Lemma sort_index_in_range key bs :
  Forall (fun i => (i < length bs)%nat) (sort_index key bs).
Proof.
  eapply Permutation_Forall; [symmetry; apply sort_index_perm|].
  apply Forall_forall. intros i Hi. apply in_seq in Hi. lia.
Qed.

(** Two boxes with equal keys come out in the order they went in. *)
Lemma sort_index_stable key bs p q i j bi bj :
  (p < q)%nat ->
  nth_error (sort_index key bs) p = Some i ->
  nth_error (sort_index key bs) q = Some j ->
  nth_error bs i = Some bi -> nth_error bs j = Some bj ->
  (key bi =? key bj)%float = true ->
  (i < j)%nat.
Proof.
  intros Hpq Hp Hq Hi Hj Heq. unfold sort_index in Hp, Hq.
  set (lt := fun p q : float * nat => (fst p <? fst q)%float) in *.
  set (pairs := combine (map key bs) (range (length bs))) in *.
  apply nth_error_map_inv in Hp, Hq.
  destruct Hp as ([a i'] & Hp & Hi'), Hq as ([b j'] & Hq & Hj').
  cbn in Hi', Hj'. subst i' j'.
  assert (Hin : forall c k, In (c, k) (stable_sort lt pairs) ->
                            nth_error (map key bs) k = Some c).
  { intros c k Hc. apply in_combine_range.
    rewrite length_map. fold pairs.
    eapply Permutation_in; [apply stable_sort_perm|exact Hc]. }
  pose proof (Hin _ _ (nth_error_In _ _ Hp)) as Ha.
  pose proof (Hin _ _ (nth_error_In _ _ Hq)) as Hb.
  rewrite nth_error_map, Hi in Ha. rewrite nth_error_map, Hj in Hb.
  cbn in Ha, Hb. injection Ha as <-. injection Hb as <-.
  assert (Hs : StronglySorted
                 (fun a b : float * nat => (snd a < snd b)%nat \/ lt a b = true)
                 (stable_sort lt pairs)).
  { apply stable_sort_stable. subst pairs.
    rewrite <- (length_map key bs). apply combine_range_sorted. }
  destruct (StronglySorted_nth _ _ Hs p q _ _ Hpq Hp Hq) as [Hlt|Hlt].
  - exact Hlt.
  - subst lt. cbn in Hlt. rewrite (float_eqb_not_ltb _ _ Heq) in Hlt. discriminate.
Qed.

Lemma sorted_index_perm key bs :
  Permutation (sorted_index key bs) (range (length bs)).
Proof.
  unfold sorted_index. rewrite listsort_perm.
  rewrite <- (length_map key bs) at 1. rewrite map_snd_combine_range.
  now rewrite length_map.
Qed.

Lemma sorted_index_in_range key bs :
  Forall (fun i => (i < length bs)%nat) (sorted_index key bs).
Proof.
  eapply Permutation_Forall; [symmetry; apply sorted_index_perm|].
  apply Forall_forall. intros i Hi. apply in_seq in Hi. lia.
Qed.

(** Without a NaN among the keys [<] is a strict weak order on them, and
    [sorted] returns the indices in the stable order of the keys. *)
Lemma sorted_index_no_nan key bs :
  Forall (fun b => is_nan (key b) = false) bs ->
  sorted_index key bs = sort_index key bs.
Proof.
  intros Hnan. unfold sorted_index, sort_index. f_equal.
  set (pairs := combine (map key bs) (range (length bs))).
  assert (Hp : forall p q : float * nat, In p pairs -> In q pairs ->
                 (fst p <? fst q)%float = np_lt (fst p) (fst q)).
  { intros p [a i] _ Hq. symmetry. apply np_lt_no_nan. cbn.
    apply in_combine_map_key in Hq. destruct Hq as (b & Hb & ->).
    rewrite Forall_forall in Hnan. apply Hnan. eapply nth_error_In, Hb. }
  rewrite (listsort_ext _ (fun p q => np_lt (fst p) (fst q)) pairs Hp).
  rewrite (stable_sort_ext _ (fun p q => np_lt (fst p) (fst q)) pairs Hp).
  apply (listsort_stable_sort _ snd).
  - intros p q. apply np_lt_asym.
  - intros p q r. apply np_le_trans.
  - unfold pairs. rewrite <- (length_map key bs). apply combine_range_sorted.
Qed.

(** The run of [sort_bboxes] once the early return is passed and the key
    chosen. *)
Lemma sort_bboxes_run dist pred order key :
  key_for dist pred order key ->
  (2 <= length (bboxes pred))%nat ->
  length (bboxes pred) = length (masks pred) ->
  exists bs ms,
    sort_bboxes dist pred order = Ok (set_masks (set_bboxes pred bs) ms) /\
    picks (bboxes pred) (sorted_index key (bboxes pred)) bs /\
    picks (masks pred) (sorted_index key (bboxes pred)) ms.
Proof.
  intros Hkey Hlen Hal.
  destruct (comprehension_getitem (bboxes pred) (sorted_index key (bboxes pred)))
    as (bs & Hbs & Hpb); [apply sorted_index_in_range|].
  destruct (comprehension_getitem (masks pred) (sorted_index key (bboxes pred)))
    as (ms & Hms & Hpm); [rewrite <- Hal; apply sorted_index_in_range|].
  exists bs, ms. split; [|split; assumption].
  assert (Hle : (len (bboxes pred) <=? 1) = false)
    by (apply Z.leb_gt; unfold len; lia).
  unfold sort_bboxes. rewrite Hle. unfold sorted_index in Hbs, Hms.
  destruct Hkey as [[-> ->]|[(-> & cx & cy & Hcx & Hcy & ->)|[-> ->]]];
    cbn [Z.eqb SortBy.NONE SortBy.LEFT_TO_RIGHT SortBy.CENTER_TO_EDGE
         SortBy.AREA Pos.eqb orb bind];
    try rewrite Hcx; try rewrite Hcy; cbn [bind];
    unfold sorted; rewrite comprehension_keys; cbn [bind];
    rewrite Hbs; cbn [bind set_bboxes masks]; rewrite Hms; reflexivity.
Qed.

Lemma sort_bboxes_short dist pred order :
  (length (bboxes pred) <= 1)%nat -> sort_bboxes dist pred order = Ok pred.
Proof.
  intros Hlen. unfold sort_bboxes.
  assert (Hle : (len (bboxes pred) <=? 1) = true)
    by (apply Z.leb_le; unfold len; lia).
  now rewrite Hle, orb_true_r.
Qed.

Lemma sort_bboxes_invalid dist pred order :
  order < 0 \/ 3 < order -> (2 <= length (bboxes pred))%nat ->
  sort_bboxes dist pred order = Raise RuntimeError.
Proof.
  intros Ho Hlen. unfold sort_bboxes.
  assert (Hle : (len (bboxes pred) <=? 1) = false)
    by (apply Z.leb_gt; unfold len; lia).
  rewrite Hle.
  unfold SortBy.NONE, SortBy.LEFT_TO_RIGHT, SortBy.CENTER_TO_EDGE, SortBy.AREA.
  destruct (Z.eqb_spec order 0); [lia|].
  destruct (Z.eqb_spec order 1); [lia|].
  destruct (Z.eqb_spec order 2); [lia|].
  destruct (Z.eqb_spec order 3); [lia|].
  reflexivity.
Qed.

Lemma mask_merge_invert_invalid masks n :
  n < 0 \/ 3 < n -> masks <> [] ->
  mask_merge_invert masks (ModeInt n) = Raise RuntimeError.
Proof.
  intros Hn Hne. unfold mask_merge_invert. cbn [bind].
  destruct (len masks =? 0) eqn:He; [apply len_zero_iff in He; contradiction|].
  unfold MergeInvert.NONE, MergeInvert.MERGE, MergeInvert.MERGE_INVERT,
    MergeInvert.SUBTRACT.
  destruct (Z.eqb_spec n 0); [lia|].
  destruct (Z.eqb_spec n 1); [lia|].
  destruct (Z.eqb_spec n 2); [lia|].
  destruct (Z.eqb_spec n 3); [lia|].
  reflexivity.
Qed.

(** C2 (as amended): an order outside the four sort orders makes
    [sort_bboxes] raise [RuntimeError] when there are at least two boxes,
    an integer mode outside the four modes makes [mask_merge_invert] raise
    [RuntimeError] when the mask list is not empty, and an alias that is not
    in the table makes it raise [ValueError] on every mask list.  With at
    most one box, or with an empty mask list and an integer mode, the early
    return comes first and the input is returned. *)
Theorem invalid_enum_raises_past_early_return :
  (forall dist pred order, order < 0 \/ 3 < order ->
     ((2 <= length (bboxes pred))%nat ->
        sort_bboxes dist pred order = Raise RuntimeError) /\
     ((length (bboxes pred) <= 1)%nat ->
        sort_bboxes dist pred order = Ok pred)) /\
  (forall masks n, n < 0 \/ 3 < n ->
     (masks <> [] -> mask_merge_invert masks (ModeInt n) = Raise RuntimeError) /\
     (masks = [] -> mask_merge_invert masks (ModeInt n) = Ok masks)) /\
  (forall masks s, ~ In s MASK_MERGE_INVERT ->
     mask_merge_invert masks (ModeStr s) = Raise ValueError).
Proof.
  split; [|split].
  - intros dist pred order Ho. split.
    + now apply sort_bboxes_invalid.
    + apply sort_bboxes_short.
  - intros masks n Hn. split.
    + now apply mask_merge_invert_invalid.
    + intros ->. unfold mask_merge_invert. cbn. now rewrite orb_true_r.
  - intros masks s Hs. unfold mask_merge_invert.
    now rewrite (list_index_absent _ _ Hs).
Qed.

(** C2, as stated, fails: with a single box the order 7 is accepted and
    the set returned, and with no mask the mode 7 is accepted and the empty
    list returned. *)
Lemma invalid_enum_accepted_on_degenerate_input :
  sort_bboxes euclid pred_single 7 = Ok pred_single /\
  mask_merge_invert [] (ModeInt 7) = Ok [].
Proof. split; reflexivity. Qed.

Lemma invalid_enum_raises_past_early_return_witness :
  sort_bboxes euclid
    (mkPredictOutput [mkBbox 0 0 10 10; mkBbox 5 5 15 15] [mask23; mask23] []
       preview100) 7 = Raise RuntimeError /\
  mask_merge_invert [mask23] (ModeInt 7) = Raise RuntimeError /\
  mask_merge_invert [] (ModeStr "Invert") = Raise ValueError.
Proof.
  pose proof invalid_enum_raises_past_early_return as (Hsort & Hmode & Halias).
  split; [|split].
  - apply Hsort; [lia|cbn; lia].
  - apply Hmode; [lia|discriminate].
  - apply Halias. cbn. intros [H|[H|[H|[H|[]]]]]; discriminate.
Defined.

(** C4 (as amended): [sort_bboxes] is stable on keys that are not NaN.
    For a prediction set and each of the orders LEFT_TO_RIGHT,
    CENTER_TO_EDGE and AREA it returns the boxes and the masks at a
    permutation [idx] of the input indices; and when no key is a NaN, two
    boxes whose keys are equal stand in the output as they stood in the
    input: the one at the earlier output position has the smaller input
    index. *)
Theorem sort_bboxes_stable dist (pred : PredictOutput) (order : Z)
    (Hpred : PredictionSet pred = true) (Horder : 1 <= order <= 3) :
  exists key idx pred',
    key_for dist pred order key /\
    sort_bboxes dist pred order = Ok pred' /\
    Permutation idx (range (length (bboxes pred))) /\
    picks (bboxes pred) idx (bboxes pred') /\
    picks (masks pred) idx (masks pred') /\
    (Forall (fun b => is_nan (key b) = false) (bboxes pred) ->
     forall p q i j bi bj,
       (p < q)%nat ->
       nth_error idx p = Some i -> nth_error idx q = Some j ->
       nth_error (bboxes pred) i = Some bi ->
       nth_error (bboxes pred) j = Some bj ->
       (key bi =? key bj)%float = true ->
       (i < j)%nat).
Proof.
  unfold PredictionSet in Hpred. apply andb_true_iff in Hpred.
  destruct Hpred as [Hal Hwf]. apply Nat.eqb_eq in Hal.
  destruct (key_for_exists dist pred order Hwf Horder) as [key Hkey].
  exists key.
  destruct (Nat.le_gt_cases (length (bboxes pred)) 1) as [Hshort|Hlong].
  - exists (range (length (bboxes pred))), pred.
    split; [exact Hkey|]. split; [now apply sort_bboxes_short|].
    split; [reflexivity|]. split; [apply picks_all|].
    split; [rewrite Hal; apply picks_all|].
    intros _ p q i j bi bj Hpq Hp Hq _ _ _.
    assert (Hq' : (q < length (range (length (bboxes pred))))%nat)
      by (apply nth_error_Some; congruence).
    unfold range in Hq'. rewrite length_seq in Hq'. lia.
  - destruct (sort_bboxes_run dist pred order key Hkey Hlong Hal)
      as (bs & ms & Hrun & Hpb & Hpm).
    exists (sorted_index key (bboxes pred)), (set_masks (set_bboxes pred bs) ms).
    split; [exact Hkey|]. split; [exact Hrun|].
    split; [apply sorted_index_perm|]. split; [exact Hpb|]. split; [exact Hpm|].
    intros Hnan p q i j bi bj. rewrite (sorted_index_no_nan key _ Hnan).
    apply sort_index_stable.
Qed.

Lemma sort_bboxes_stable_witness :
  PredictionSet pred_ties = true /\
  sort_bboxes euclid pred_ties SortBy.LEFT_TO_RIGHT =
    Ok (mkPredictOutput
          [mkBbox 0 0 10 10; mkBbox 5 5 15 15; mkBbox 5 0 15 10]
          [mkImage 1 1 [[2]]; mkImage 1 1 [[1]]; mkImage 1 1 [[3]]]
          [0.75%float; 0.5%float; 0.25%float]
          preview100) /\
  exists key idx pred',
    key_for euclid pred_ties SortBy.LEFT_TO_RIGHT key /\
    sort_bboxes euclid pred_ties SortBy.LEFT_TO_RIGHT = Ok pred' /\
    Permutation idx (range (length (bboxes pred_ties))) /\
    picks (bboxes pred_ties) idx (bboxes pred') /\
    picks (masks pred_ties) idx (masks pred') /\
    (Forall (fun b => is_nan (key b) = false) (bboxes pred_ties) ->
     forall p q i j bi bj,
       (p < q)%nat ->
       nth_error idx p = Some i -> nth_error idx q = Some j ->
       nth_error (bboxes pred_ties) i = Some bi ->
       nth_error (bboxes pred_ties) j = Some bj ->
       (key bi =? key bj)%float = true ->
       (i < j)%nat).
Proof.
  split; [reflexivity|]. split; [vm_compute; reflexivity|].
  apply (sort_bboxes_stable euclid pred_ties SortBy.LEFT_TO_RIGHT eq_refl).
  unfold SortBy.LEFT_TO_RIGHT. lia.
Defined.

(** C4, as stated, fails on a NaN key.  The seven boxes of [pred_nan] have
    the areas 9, 8, 1, NaN, 5, 10, 5, the fourth being the product of an
    infinite width and a zero height.  Sorted by AREA they come out at the
    input indices 5, 0, 1, 6, 2, 3, 4: the boxes 4 and 6 have equal keys,
    and box 6 comes out before box 4. *)
Lemma sort_bboxes_nan_key_breaks_stability :
  PredictionSet pred_nan = true /\
  map _key_area (bboxes pred_nan) = [-9; -8; -1; nan; -5; -10; -5]%float /\
  exists pred',
    sort_bboxes euclid pred_nan SortBy.AREA = Ok pred' /\
    picks (bboxes pred_nan) [5; 0; 1; 6; 2; 3; 4]%nat (bboxes pred') /\
    picks (masks pred_nan) [5; 0; 1; 6; 2; 3; 4]%nat (masks pred') /\
    nth_error (bboxes pred') 3 = nth_error (bboxes pred_nan) 6 /\
    nth_error (bboxes pred') 6 = nth_error (bboxes pred_nan) 4 /\
    nth_error (bboxes pred_nan) 4 <> nth_error (bboxes pred_nan) 6.
Proof.
  split; [reflexivity|]. split; [vm_compute; reflexivity|].
  eexists. split; [vm_compute; reflexivity|].
  cbn [bboxes masks]. split; [repeat constructor|]. split; [repeat constructor|].
  split; [reflexivity|]. split; [reflexivity|]. discriminate.
Qed.

(** ** Filter by ratio *)

Lemma is_in_ratio_ok b low high orig_area d :
  float_of_int orig_area = Ok d -> orig_area <> 0 ->
  is_in_ratio b low high orig_area = Ok (in_ratio d low high b).
Proof.
  intros Hd Hnz. unfold is_in_ratio, float_truediv_int. rewrite Hd. cbn [bind].
  destruct (Z.eqb_spec orig_area 0); [contradiction|reflexivity].
Qed.

Lemma comprehension_if_getitem {A : Type} (l : list A) (c : A -> result bool)
    (f : A -> bool) idx :
  (forall a, In a l -> c a = Ok (f a)) ->
  Forall (fun i => (i < length l)%nat) idx ->
  comprehension_if (fun i => b <- getitem l i ;; c b) idx =
  Ok (filter (fun i => match nth_error l i with
                       | Some b => f b
                       | None => false
                       end) idx).
Proof.
  intros Hc. induction 1 as [|i idx Hi _ IH]; [reflexivity|].
  cbn [comprehension_if filter]. unfold getitem at 1.
  destruct (nth_error l i) as [b|] eqn:Hb; [|apply nth_error_None in Hb; lia].
  cbn [bind]. rewrite (Hc b) by (eapply nth_error_In, Hb). cbn [bind].
  rewrite IH. cbn [bind]. now destruct (f b).
Qed.

Lemma range_in_range n : Forall (fun i => (i < n)%nat) (range n).
Proof. apply Forall_forall. intros i Hi. apply in_seq in Hi. lia. Qed.

Lemma seq_increasing s n : StronglySorted Nat.lt (seq s n).
Proof.
  revert s. induction n as [|n IH]; intros s; cbn; constructor; [apply IH|].
  apply Forall_forall. intros i Hi. apply in_seq in Hi. lia.
Qed.

Lemma filter_increasing (g : nat -> bool) l :
  StronglySorted Nat.lt l -> StronglySorted Nat.lt (filter g l).
Proof.
  induction 1 as [|i l Hs IH Hi]; cbn; [constructor|].
  destruct (g i); [|exact IH]. constructor; [exact IH|].
  apply Forall_forall. intros j Hj. apply filter_In in Hj.
  rewrite Forall_forall in Hi. now apply Hi.
Qed.

Lemma extent_area_bounds img :
  wf_extent img = true -> 0 < xsize img * ysize img < 2 ^ 62.
Proof.
  intros H. apply wf_extent_spec in H. destruct H as [Hx Hy].
  change (2 ^ 62) with (2 ^ 31 * 2 ^ 31). change (2 ^ 31) with 2147483648 in *.
  nia.
Qed.

(** The run of [filter_by_ratio] on aligned boxes and masks and a
    reference image of positive extent. *)
Lemma filter_by_ratio_run (pred : PredictOutput) (low high : float)
    (Hal : length (bboxes pred) = length (masks pred))
    (Hwf : wf_extent (preview pred) = true) :
  exists d idx pred',
    float_of_int (xsize (preview pred) * ysize (preview pred)) = Ok d /\
    filter_by_ratio pred low high = Ok pred' /\
    StronglySorted Nat.lt idx /\
    (forall i, In i idx <->
       exists b, nth_error (bboxes pred) i = Some b /\
                 (low <=? bbox_area b / d)%float = true /\
                 (bbox_area b / d <=? high)%float = true) /\
    picks (bboxes pred) idx (bboxes pred') /\
    picks (masks pred) idx (masks pred').
Proof.
  pose proof (extent_area_bounds _ Hwf) as Harea.
  set (orig_area := xsize (preview pred) * ysize (preview pred)) in *.
  pose proof (float_of_int_small orig_area ltac:(lia)) as Hd.
  set (d := SF2Prim (binary_normalize prec emax orig_area 0 false)) in *.
  set (g := fun i => match nth_error (bboxes pred) i with
                     | Some b => in_ratio d low high b
                     | None => false
                     end).
  set (idx := filter g (range (length (bboxes pred)))).
  assert (Hidx : Forall (fun i => (i < length (bboxes pred))%nat) idx).
  { apply Forall_forall. intros i Hi. apply filter_In in Hi.
    destruct Hi as [Hi _]. apply in_seq in Hi. lia. }
  assert (Hin : forall i, In i idx <->
            exists b, nth_error (bboxes pred) i = Some b /\
                      (low <=? bbox_area b / d)%float = true /\
                      (bbox_area b / d <=? high)%float = true).
  { intros i. unfold idx. rewrite filter_In. unfold g, in_ratio. split.
    - intros [_ Hg]. destruct (nth_error (bboxes pred) i) as [b|]; [|discriminate].
      apply andb_true_iff in Hg. now exists b.
    - intros (b & Hb & Hlo & Hhi). split.
      + apply in_seq. assert (i < length (bboxes pred))%nat; [|lia].
        apply nth_error_Some. congruence.
      + now rewrite Hb, Hlo, Hhi. }
  exists d, idx.
  destruct (len (bboxes pred) =? 0) eqn:He.
  - apply len_zero_iff in He.
    assert (Hm : masks pred = [])
      by (apply length_zero_iff_nil; rewrite <- Hal, He; reflexivity).
    assert (Hnil : idx = []) by (unfold idx; rewrite He; reflexivity).
    exists pred.
    split; [exact Hd|]. split; [unfold filter_by_ratio; now rewrite He|].
    split; [rewrite Hnil; constructor|]. split; [exact Hin|].
    rewrite Hnil, He, Hm. split; constructor.
  - destruct (comprehension_getitem (bboxes pred) idx Hidx) as (bs & Hcb & Hpb).
    destruct (comprehension_getitem (masks pred) idx) as (ms & Hcm & Hpm);
      [now rewrite <- Hal|].
    exists (set_masks (set_bboxes pred bs) ms).
    split; [exact Hd|]. split.
    + unfold filter_by_ratio. rewrite He. cbv zeta. fold orig_area.
      rewrite (comprehension_if_getitem (bboxes pred)
                 (fun b => is_in_ratio b low high orig_area)
                 (in_ratio d low high)).
      * fold g. fold idx. cbn [bind]. rewrite Hcb. cbn [bind set_bboxes masks].
        now rewrite Hcm.
      * intros b _. apply is_in_ratio_ok; [exact Hd|lia].
      * apply range_in_range.
    + split; [apply filter_increasing, seq_increasing|].
      split; [exact Hin|]. split; assumption.
Qed.

(** C7: on a prediction set [filter_by_ratio] keeps exactly the indices
    whose box has [low <= area / (width * height) <= high], both bounds
    included, and returns the boxes and the masks at these indices in
    increasing order of index, that is in their original relative order. *)
Theorem filter_by_ratio_keeps_in_ratio (pred : PredictOutput) (low high : float)
    (Hpred : PredictionSet pred = true) :
  exists d idx pred',
    float_of_int (xsize (preview pred) * ysize (preview pred)) = Ok d /\
    filter_by_ratio pred low high = Ok pred' /\
    StronglySorted Nat.lt idx /\
    (forall i, In i idx <->
       exists b, nth_error (bboxes pred) i = Some b /\
                 (low <=? bbox_area b / d)%float = true /\
                 (bbox_area b / d <=? high)%float = true) /\
    picks (bboxes pred) idx (bboxes pred') /\
    picks (masks pred) idx (masks pred').
Proof.
  unfold PredictionSet in Hpred. apply andb_true_iff in Hpred.
  destruct Hpred as [Hal Hwf]. apply Nat.eqb_eq in Hal.
  now apply filter_by_ratio_run.
Qed.

Lemma filter_by_ratio_keeps_in_ratio_witness :
  PredictionSet pred_ratio = true /\
  filter_by_ratio pred_ratio 0.25 1 =
    Ok (mkPredictOutput
          [mkBbox 0 0 8 8; mkBbox 0 0 16 16]
          [mkImage 1 1 [[1]]; mkImage 1 1 [[3]]]
          [0.75%float; 0.5%float; 0.25%float]
          (mkImage 16 16 [])) /\
  exists d idx pred',
    float_of_int (xsize (preview pred_ratio) * ysize (preview pred_ratio)) = Ok d /\
    filter_by_ratio pred_ratio 0.25 1 = Ok pred' /\
    StronglySorted Nat.lt idx /\
    (forall i, In i idx <->
       exists b, nth_error (bboxes pred_ratio) i = Some b /\
                 (0.25 <=? bbox_area b / d)%float = true /\
                 (bbox_area b / d <=? 1)%float = true) /\
    picks (bboxes pred_ratio) idx (bboxes pred') /\
    picks (masks pred_ratio) idx (masks pred').
Proof.
  split; [reflexivity|]. split; [vm_compute; reflexivity|].
  exact (filter_by_ratio_keeps_in_ratio pred_ratio 0.25 1 eq_refl).
Defined.

(** ** Filter k largest *)

Lemma np_argsort_areas bs :
  np_argsort (map bbox_area bs) = map snd (sorted_areas bs).
Proof. unfold np_argsort, sorted_areas. now rewrite length_map. Qed.

Lemma sorted_areas_perm bs :
  Permutation (map snd (sorted_areas bs)) (range (length bs)).
Proof.
  unfold sorted_areas. rewrite stable_sort_perm.
  rewrite <- (length_map bbox_area bs) at 1. rewrite map_snd_combine_range.
  now rewrite length_map.
Qed.

Lemma sorted_areas_in bs a i :
  In (a, i) (sorted_areas bs) ->
  forall b, nth_error bs i = Some b -> a = bbox_area b.
Proof.
  intros Hin b Hb. unfold sorted_areas in Hin.
  eapply Permutation_in in Hin; [|apply stable_sort_perm].
  rewrite <- (length_map bbox_area bs) in Hin. apply in_combine_range in Hin.
  rewrite nth_error_map, Hb in Hin. cbn [option_map] in Hin. congruence.
Qed.

Lemma sorted_areas_ascending bs :
  StronglySorted (fun p q => area_le (fst p) (fst q)) (sorted_areas bs).
Proof.
  eapply StronglySorted_weaken; [|apply stable_sort_ascending].
  - intros p q H. now apply area_le_iff.
  - intros p q. apply np_lt_asym.
  - intros p q r. apply np_le_trans.
Qed.

Lemma slice_from_keeps {A : Type} (P : A -> Prop) (l : list A) start :
  Forall P l -> Forall P (slice_from l start).
Proof.
  intros H. unfold slice_from. apply Forall_forall. intros a Ha.
  rewrite Forall_forall in H. apply H.
  rewrite <- (firstn_skipn (Z.to_nat
    (if start <? 0 then Z.max (len l + start) 0 else Z.min start (len l))) l).
  apply in_or_app. now right.
Qed.

(** The slice [l[-k:]] for a positive [k]: the last [k] elements, or all. *)
Lemma slice_from_last {A : Type} (l : list A) k :
  0 < k -> slice_from l (- k) = skipn (length l - Z.to_nat k) l.
Proof.
  intros Hk. unfold slice_from, len.
  destruct (Z.ltb_spec (- k) 0) as [_|?]; [|lia]. f_equal. lia.
Qed.

Lemma filter_k_largest_run pred k :
  (len (bboxes pred) =? 0) || (k =? 0) = false ->
  length (bboxes pred) = length (masks pred) ->
  exists bs ms,
    filter_k_largest pred k = Ok (set_masks (set_bboxes pred bs) ms) /\
    picks (bboxes pred)
      (slice_from (np_argsort (map bbox_area (bboxes pred))) (- k)) bs /\
    picks (masks pred)
      (slice_from (np_argsort (map bbox_area (bboxes pred))) (- k)) ms.
Proof.
  intros Hgo Hal.
  set (idx := slice_from (np_argsort (map bbox_area (bboxes pred))) (- k)).
  assert (Hidx : Forall (fun i => (i < length (bboxes pred))%nat) idx).
  { apply slice_from_keeps. rewrite np_argsort_areas.
    eapply Permutation_Forall; [symmetry; apply sorted_areas_perm|].
    apply range_in_range. }
  destruct (comprehension_getitem (bboxes pred) idx Hidx) as (bs & Hcb & Hpb).
  destruct (comprehension_getitem (masks pred) idx) as (ms & Hcm & Hpm);
    [now rewrite <- Hal|].
  exists bs, ms. split; [|split; assumption].
  unfold filter_k_largest. rewrite Hgo. cbv zeta. fold idx.
  rewrite Hcb. cbn [bind set_bboxes masks]. now rewrite Hcm.
Qed.

Lemma picks_pairs {A B : Type} (f : A -> B) (l : list A) (T : list (B * nat)) out :
  (forall a i, In (a, i) T -> forall b, nth_error l i = Some b -> a = f b) ->
  picks l (map snd T) out -> map f out = map fst T.
Proof.
  revert out. induction T as [|[a i] T IH]; intros out HT Hp; cbn in Hp.
  - inversion Hp. reflexivity.
  - inversion Hp as [|? b ? out' Hb Hrest]; subst. cbn. f_equal.
    + symmetry. apply (HT a i); [now left|exact Hb].
    + apply IH; [|exact Hrest]. intros c k Hc. apply HT. now right.
Qed.

(** C3 (as amended): for every prediction set and every [k > 0],
    [filter_k_largest] keeps [min k len] boxes, all of them when
    [k >= len]; the kept boxes and their masks are those at the indices
    [idx], by one permutation; the areas of the output ascend, equal areas
    allowed, so the largest is last; and no dropped box is larger than a
    kept one. *)
Theorem filter_k_largest_ascending (pred : PredictOutput) (k : Z)
    (Hpred : PredictionSet pred = true) (Hk : 0 < k) :
  exists idx dropped pred',
    filter_k_largest pred k = Ok pred' /\
    Permutation (dropped ++ idx) (range (length (bboxes pred))) /\
    length idx = Z.to_nat (Z.min k (len (bboxes pred))) /\
    (len (bboxes pred) <= k -> dropped = []) /\
    picks (bboxes pred) idx (bboxes pred') /\
    picks (masks pred) idx (masks pred') /\
    StronglySorted area_le (map bbox_area (bboxes pred')) /\
    (forall i j bi bj,
       In i dropped -> In j idx ->
       nth_error (bboxes pred) i = Some bi ->
       nth_error (bboxes pred) j = Some bj ->
       area_le (bbox_area bi) (bbox_area bj)).
Proof.
  unfold PredictionSet in Hpred. apply andb_true_iff in Hpred.
  destruct Hpred as [Hal _]. apply Nat.eqb_eq in Hal.
  destruct (len (bboxes pred) =? 0) eqn:He.
  - apply len_zero_iff in He.
    assert (Hm : masks pred = [])
      by (apply length_zero_iff_nil; rewrite <- Hal, He; reflexivity).
    exists [], [], pred. unfold filter_k_largest. rewrite He, Hm. cbn.
    split; [reflexivity|]. split; [constructor|]. split; [lia|].
    split; [reflexivity|]. split; [constructor|]. split; [constructor|].
    split; [constructor|]. intros i j bi bj [].
  - assert (Hgo : (len (bboxes pred) =? 0) || (k =? 0) = false).
    { rewrite He. cbn. apply Z.eqb_neq. lia. }
    destruct (filter_k_largest_run pred k Hgo Hal) as (bs & ms & Hrun & Hpb & Hpm).
    rewrite np_argsort_areas, slice_from_last, length_map, skipn_map in Hpb, Hpm
      by exact Hk.
    set (S := sorted_areas (bboxes pred)) in *.
    set (s := (length S - Z.to_nat k)%nat) in *.
    assert (HlenS : length S = length (bboxes pred)).
    { rewrite <- (length_map snd S). unfold S.
      rewrite (Permutation_length (sorted_areas_perm _)).
      unfold range. apply length_seq. }
    destruct (StronglySorted_split _ s S (sorted_areas_ascending _)) as [Hsk Hfs].
    exists (map snd (skipn s S)), (map snd (firstn s S)),
      (set_masks (set_bboxes pred bs) ms).
    split; [exact Hrun|]. split.
    { rewrite <- map_app, firstn_skipn. apply sorted_areas_perm. }
    split.
    { rewrite length_map, length_skipn. unfold s, len. lia. }
    split.
    { intros Hall. replace s with 0%nat by (unfold s, len in *; lia). reflexivity. }
    split; [exact Hpb|]. split; [exact Hpm|]. split.
    + cbn [set_masks set_bboxes bboxes].
      rewrite (picks_pairs bbox_area (bboxes pred) (skipn s S) bs).
      * now apply StronglySorted_map.
      * intros a i Hin. apply sorted_areas_in. fold S.
        rewrite <- (firstn_skipn s S). apply in_or_app. now right.
      * exact Hpb.
    + intros i j bi bj Hi Hj Hbi Hbj.
      apply in_map_iff in Hi, Hj.
      destruct Hi as ([a i'] & Hi' & Hi), Hj as ([b j'] & Hj' & Hj).
      cbn in Hi', Hj'. subst i' j'.
      assert (Ha : a = bbox_area bi).
      { apply (sorted_areas_in (bboxes pred) a i); [|exact Hbi]. fold S.
        rewrite <- (firstn_skipn s S). apply in_or_app. now left. }
      assert (Hb : b = bbox_area bj).
      { apply (sorted_areas_in (bboxes pred) b j); [|exact Hbj]. fold S.
        rewrite <- (firstn_skipn s S). apply in_or_app. now right. }
      subst a b. exact (Hfs _ _ Hi Hj).
Qed.

(** C3, as stated, fails twice.  With the three boxes of [pred_ties], all
    of area 100, and [k = 3] the output areas are 100, 100, 100, which do
    not ascend strictly.  With the boxes of [pred_ratio], of areas 64, 16
    and 256, and [k = 2] the output areas are 64, 256: the second largest
    comes first and the largest is last. *)
Lemma filter_k_largest_ties_and_largest_last :
  (exists pred',
     filter_k_largest pred_ties 3 = Ok pred' /\
     map bbox_area (bboxes pred') = [100; 100; 100]%float /\
     (100 <? 100)%float = false) /\
  (exists pred',
     filter_k_largest pred_ratio 2 = Ok pred' /\
     map bbox_area (bboxes pred') = [64; 256]%float /\
     map bbox_area (bboxes pred_ratio) = [64; 16; 256]%float).
Proof.
  split; eexists; (split; [vm_compute; reflexivity|]); split; reflexivity.
Qed.

Lemma filter_k_largest_ascending_witness :
  PredictionSet pred_ratio = true /\
  filter_k_largest pred_ratio 2 =
    Ok (mkPredictOutput
          [mkBbox 0 0 8 8; mkBbox 0 0 16 16]
          [mkImage 1 1 [[1]]; mkImage 1 1 [[3]]]
          [0.75%float; 0.5%float; 0.25%float]
          (mkImage 16 16 [])) /\
  exists idx dropped pred',
    filter_k_largest pred_ratio 2 = Ok pred' /\
    Permutation (dropped ++ idx) (range (length (bboxes pred_ratio))) /\
    length idx = Z.to_nat (Z.min 2 (len (bboxes pred_ratio))) /\
    (len (bboxes pred_ratio) <= 2 -> dropped = []) /\
    picks (bboxes pred_ratio) idx (bboxes pred') /\
    picks (masks pred_ratio) idx (masks pred') /\
    StronglySorted area_le (map bbox_area (bboxes pred')) /\
    (forall i j bi bj,
       In i dropped -> In j idx ->
       nth_error (bboxes pred_ratio) i = Some bi ->
       nth_error (bboxes pred_ratio) j = Some bj ->
       area_le (bbox_area bi) (bbox_area bj)).
Proof.
  split; [reflexivity|]. split; [vm_compute; reflexivity|].
  apply (filter_k_largest_ascending pred_ratio 2 eq_refl). lia.
Defined.

(** ** Alignment and frame *)

Lemma aligned_refl pred :
  length (bboxes pred) = length (masks pred) -> aligned pred pred.
Proof.
  intros Hal. split; [exact Hal|]. exists (range (length (bboxes pred))).
  split; [apply picks_all|]. rewrite Hal. apply picks_all.
Qed.

Lemma aligned_picks pred idx bs ms :
  picks (bboxes pred) idx bs -> picks (masks pred) idx ms ->
  aligned pred (set_masks (set_bboxes pred bs) ms).
Proof.
  intros Hb Hm. split.
  - cbn. now rewrite (picks_length _ _ _ Hb), (picks_length _ _ _ Hm).
  - now exists idx.
Qed.

(** C8: on a prediction set, where there are as many masks as boxes, each
    of [filter_by_ratio], [filter_k_largest] and [sort_bboxes] (for the
    four sort orders) returns a set with as many masks as boxes, whose
    boxes and masks are those of the input at one and the same list of
    indices. *)
Theorem operations_keep_boxes_and_masks_aligned (pred : PredictOutput)
    (Hpred : PredictionSet pred = true) :
  (forall low high, exists pred',
     filter_by_ratio pred low high = Ok pred' /\ aligned pred pred') /\
  (forall k, exists pred',
     filter_k_largest pred k = Ok pred' /\ aligned pred pred') /\
  (forall dist order, 0 <= order <= 3 -> exists pred',
     sort_bboxes dist pred order = Ok pred' /\ aligned pred pred').
Proof.
  unfold PredictionSet in Hpred. apply andb_true_iff in Hpred.
  destruct Hpred as [Hal Hwf]. apply Nat.eqb_eq in Hal.
  split; [|split].
  - intros low high.
    destruct (filter_by_ratio_run pred low high Hal Hwf)
      as (d & idx & pred' & _ & Hrun & _ & _ & Hpb & Hpm).
    exists pred'. split; [exact Hrun|]. split; [|now exists idx].
    now rewrite (picks_length _ _ _ Hpb), (picks_length _ _ _ Hpm).
  - intros k. destruct ((len (bboxes pred) =? 0) || (k =? 0)) eqn:Hgo.
    + exists pred. split; [unfold filter_k_largest; now rewrite Hgo|].
      now apply aligned_refl.
    + destruct (filter_k_largest_run pred k Hgo Hal) as (bs & ms & Hrun & Hpb & Hpm).
      eexists. split; [exact Hrun|]. eapply aligned_picks; eassumption.
  - intros dist order Ho.
    destruct (Z.eq_dec order 0) as [->|Hnz].
    + exists pred. split; [reflexivity|]. now apply aligned_refl.
    + destruct (Nat.le_gt_cases (length (bboxes pred)) 1) as [Hshort|Hlong].
      * exists pred. split; [now apply sort_bboxes_short|]. now apply aligned_refl.
      * destruct (key_for_exists dist pred order Hwf) as [key Hkey]; [lia|].
        destruct (sort_bboxes_run dist pred order key Hkey Hlong Hal)
          as (bs & ms & Hrun & Hpb & Hpm).
        eexists. split; [exact Hrun|]. eapply aligned_picks; eassumption.
Qed.

Lemma operations_keep_boxes_and_masks_aligned_witness :
  PredictionSet pred_ties = true /\
  (exists pred',
     filter_by_ratio pred_ties 0 1 = Ok pred' /\ aligned pred_ties pred') /\
  (exists pred',
     filter_k_largest pred_ties 2 = Ok pred' /\ aligned pred_ties pred') /\
  (exists pred',
     sort_bboxes euclid pred_ties SortBy.CENTER_TO_EDGE = Ok pred' /\
     aligned pred_ties pred').
Proof.
  pose proof (operations_keep_boxes_and_masks_aligned pred_ties eq_refl)
    as (Hratio & Htop & Hsort).
  split; [reflexivity|]. split; [apply Hratio|]. split; [apply Htop|].
  apply Hsort. unfold SortBy.CENTER_TO_EDGE. lia.
Defined.

Lemma bind_ok {A B : Type} (r : result A) (k : A -> result B) b :
  bind r k = Ok b -> exists a, r = Ok a /\ k a = Ok b.
Proof. destruct r as [a|e]; cbn; [now exists a|discriminate]. Qed.

Ltac frame_of_run H :=
  repeat (apply bind_ok in H; destruct H as (? & _ & H));
  injection H as <-; split; reflexivity.

(** C10: whatever [filter_by_ratio], [filter_k_largest] and [sort_bboxes]
    return has the confidences and the reference image of the input; so
    when the input has one confidence for each box and boxes are dropped,
    the confidences keep their length, which is no longer the number of
    boxes. *)
Theorem operations_leave_confidences_and_preview (pred : PredictOutput) :
  (forall low high pred', filter_by_ratio pred low high = Ok pred' ->
     frame pred pred') /\
  (forall k pred', filter_k_largest pred k = Ok pred' -> frame pred pred') /\
  (forall dist order pred', sort_bboxes dist pred order = Ok pred' ->
     frame pred pred') /\
  (forall pred', frame pred pred' ->
     length (confidences pred) = length (bboxes pred) ->
     (length (bboxes pred') < length (bboxes pred))%nat ->
     length (confidences pred') = length (confidences pred) /\
     length (confidences pred') <> length (bboxes pred')).
Proof.
  split; [|split; [|split]].
  - intros low high pred' H. unfold filter_by_ratio in H.
    destruct (len (bboxes pred) =? 0).
    + injection H as <-. split; reflexivity.
    + cbv zeta in H. frame_of_run H.
  - intros k pred' H. unfold filter_k_largest in H.
    destruct ((len (bboxes pred) =? 0) || (k =? 0)).
    + injection H as <-. split; reflexivity.
    + cbv zeta in H. frame_of_run H.
  - intros dist order pred' H. unfold sort_bboxes in H.
    destruct ((order =? SortBy.NONE) || (len (bboxes pred) <=? 1)).
    + injection H as <-. split; reflexivity.
    + cbv zeta in H. frame_of_run H.
  - intros pred' [Hc _] Hlen Hdrop. rewrite Hc. split; [reflexivity|lia].
Qed.

Lemma operations_leave_confidences_and_preview_witness :
  filter_by_ratio pred_ratio 0.25 1 =
    Ok (mkPredictOutput
          [mkBbox 0 0 8 8; mkBbox 0 0 16 16]
          [mkImage 1 1 [[1]]; mkImage 1 1 [[3]]]
          (confidences pred_ratio) (preview pred_ratio)) /\
  frame pred_ratio
    (mkPredictOutput
       [mkBbox 0 0 8 8; mkBbox 0 0 16 16]
       [mkImage 1 1 [[1]]; mkImage 1 1 [[3]]]
       (confidences pred_ratio) (preview pred_ratio)) /\
  length (confidences pred_ratio) = 3%nat /\
  length [mkBbox 0 0 8 8; mkBbox 0 0 16 16] = 2%nat.
Proof.
  assert (Hrun : filter_by_ratio pred_ratio 0.25 1 =
    Ok (mkPredictOutput
          [mkBbox 0 0 8 8; mkBbox 0 0 16 16]
          [mkImage 1 1 [[1]]; mkImage 1 1 [[3]]]
          (confidences pred_ratio) (preview pred_ratio)))
    by (vm_compute; reflexivity).
  split; [exact Hrun|]. split; [|split; reflexivity].
  exact (proj1 (operations_leave_confidences_and_preview pred_ratio)
           0.25%float 1%float _ Hrun).
Defined.

(** * Further properties *)

(** ** Counting nonzero pixels *)

Lemma count_row_nonneg row : 0 <= count_row row.
Proof.
  induction row as [|p row IH]; [cbn; lia|].
  rewrite count_row_cons. destruct (p =? 0); lia.
Qed.

Lemma countNonZero_nonneg rows : 0 <= countNonZero rows.
Proof.
  induction rows as [|row rows IH]; [cbn; lia|].
  rewrite countNonZero_cons. pose proof (count_row_nonneg row). lia.
Qed.

Lemma count_row_zero_iff (f : Z -> Z) (l : list Z) :
  count_row (map f l) = 0 <-> forall j, In j l -> f j = 0.
Proof.
  induction l as [|j l IH]; cbn [map].
  - split; [intros _ j []|reflexivity].
  - rewrite count_row_cons. pose proof (count_row_nonneg (map f l)) as Hn.
    destruct (Z.eqb_spec (f j) 0) as [Hz|Hnz]; split.
    + intros H k [<-|Hk]; [exact Hz|]. now apply IH.
    + intros H. apply IH. intros k Hk. apply H. now right.
    + lia.
    + intros H. exfalso. apply Hnz, H. now left.
Qed.

Lemma countNonZero_zero_iff (F : Z -> list Z) (l : list Z) :
  countNonZero (map F l) = 0 <-> forall i, In i l -> count_row (F i) = 0.
Proof.
  induction l as [|i l IH]; cbn [map].
  - split; [intros _ i []|reflexivity].
  - rewrite countNonZero_cons.
    pose proof (countNonZero_nonneg (map F l)) as Hn.
    pose proof (count_row_nonneg (F i)) as Hr. split.
    + intros H k [<-|Hk]; [lia|]. apply IH; [lia|exact Hk].
    + intros H. assert (H0 : countNonZero (map F l) = 0)
        by (apply IH; intros k Hk; apply H; now right).
      rewrite H0, (H i) by now left. reflexivity.
Qed.

Lemma countNonZero_tabulate_zero_iff h w f :
  countNonZero (tabulate h w f) = 0 <->
  forall i j, 0 <= i < h -> 0 <= j < w -> f i j = 0.
Proof.
  unfold tabulate. rewrite countNonZero_zero_iff. split.
  - intros H i j Hi Hj.
    apply (proj1 (count_row_zero_iff (fun j => f i j) (axis w)));
      [apply H|]; now apply in_axis.
  - intros H i Hi. apply count_row_zero_iff. intros j Hj.
    apply H; now apply in_axis.
Qed.

Lemma is_all_black_iff m :
  wf_image m = true -> (is_all_black m = true <-> all_zero m).
Proof.
  intros Hwf. destruct (wf_image_spec m Hwf) as (_ & _ & Him & _).
  unfold is_all_black, all_zero. cbn [np_array data]. rewrite Z.eqb_eq.
  rewrite Him at 1. apply countNonZero_tabulate_zero_iff.
Qed.

(** X23: a well-formed mask is all black, as [is_all_black] tests it,
    exactly when every pixel of it is 0. *)
Theorem is_all_black_every_pixel_zero (m : Image) (Hwf : wf_image m = true) :
  is_all_black m = true <->
  forall i j, 0 <= i < ysize m -> 0 <= j < xsize m -> px (im m) i j = 0.
Proof. exact (is_all_black_iff m Hwf). Qed.

Lemma is_all_black_every_pixel_zero_witness :
  wf_image mask23 = true /\
  is_all_black mask23 = false /\
  (is_all_black (mkImage 2 1 [[0; 0]]) = true <->
   forall i j, 0 <= i < 1 -> 0 <= j < 2 -> px [[0; 0]] i j = 0).
Proof.
  split; [reflexivity|]. split; [reflexivity|].
  exact (is_all_black_every_pixel_zero (mkImage 2 1 [[0; 0]]) eq_refl).
Defined.

(** ** Subtract *)

(** X1: a mask minus itself is an all-black mask of the same extent. *)
Theorem subtract_masks_self (m : Image) :
  exists z,
    subtract_masks m m = Ok z /\
    xsize z = xsize m /\ ysize z = ysize m /\
    is_all_black z = true.
Proof.
  eexists. split; [now apply subtract_masks_same_extent|].
  split; [reflexivity|]. split; [reflexivity|].
  unfold is_all_black. cbn [np_array data im]. apply Z.eqb_eq.
  apply countNonZero_tabulate_zero_iff. intros i j _ _.
  now rewrite Z.sub_diag.
Qed.

(** X2: when the two masks are well formed, of one extent, and no pixel of
    the second exceeds the pixel of the first, [subtract_masks] returns the
    exact difference of the pixels. *)
Theorem subtract_masks_exact_when_contained (mask1 mask2 : Image)
    (Hwf1 : wf_image mask1 = true) (Hwf2 : wf_image mask2 = true)
    (Hx : xsize mask1 = xsize mask2) (Hy : ysize mask1 = ysize mask2)
    (Hle : forall i j, 0 <= i < ysize mask1 -> 0 <= j < xsize mask1 ->
             px (im mask2) i j <= px (im mask1) i j) :
  subtract_masks mask1 mask2 =
  Ok (mkImage (xsize mask1) (ysize mask1)
        (tabulate (ysize mask1) (xsize mask1) (fun i j =>
           px (im mask1) i j - px (im mask2) i j))).
Proof.
  rewrite subtract_masks_same_extent by assumption. do 2 f_equal.
  apply tabulate_ext. intros i j Hi Hj.
  destruct (wf_image_spec _ Hwf1) as (_ & _ & _ & Hp1).
  destruct (wf_image_spec _ Hwf2) as (_ & _ & _ & Hp2).
  specialize (Hle i j Hi Hj). specialize (Hp1 i j). specialize (Hp2 i j).
  apply Z.mod_small. lia.
Qed.

Lemma subtract_masks_exact_when_contained_witness :
  subtract_masks mask23 (mkImage 3 2 [[0; 255; 0]; [0; 0; 255]]) =
  Ok (mkImage 3 2 [[0; 0; 255]; [0; 0; 0]]).
Proof.
  refine (eq_trans
    (subtract_masks_exact_when_contained mask23
       (mkImage 3 2 [[0; 255; 0]; [0; 0; 255]])
       eq_refl eq_refl eq_refl eq_refl _) eq_refl).
  intros i j Hi Hj. cbn in Hi, Hj.
  assert (Hc : (i = 0 \/ i = 1) /\ (j = 0 \/ j = 1 \/ j = 2)) by lia.
  destruct Hc as [[-> | ->] [-> | [-> | ->]]]; vm_compute; discriminate.
Defined.

(** ** Merge and invert *)

Lemma Image_fromarray_np_array m : Image_fromarray (np_array m) = m.
Proof. now destruct m. Qed.

Lemma fold_bitwise_or h w (rest : list ndarray) (f : Z -> Z -> Z) :
  Forall (fun a => nrows a = h /\ ncols a = w) rest ->
  fold_left (fun acc x => y <- acc ;; cv2_bitwise_or y x) rest
    (Ok (mkArray h w (tabulate h w f))) =
  Ok (mkArray h w
        (tabulate h w (fun i j =>
           fold_left Z.lor (map (fun a => px (data a) i j) rest) (f i j)))).
Proof.
  intros Hrest. revert f. induction Hrest as [|a rest [Hh Hw] _ IH]; intros f.
  - reflexivity.
  - cbn [fold_left map bind]. unfold cv2_bitwise_or at 2.
    cbn [nrows ncols data]. rewrite <- Hh, <- Hw, !Z.eqb_refl. cbn [andb].
    rewrite Hh, Hw.
    rewrite (tabulate_ext h w _ (fun i j => Z.lor (f i j) (px (data a) i j)))
      by (intros i j Hi Hj; now rewrite px_tabulate).
    apply IH.
Qed.

Lemma mask_merge_run w h (m0 : Image) (rest : list Image) :
  Forall (fun m => wf_image m = true /\ xsize m = w /\ ysize m = h) (m0 :: rest) ->
  mask_merge (m0 :: rest) =
  Ok [mkImage w h (tabulate h w (or_pixels (m0 :: rest)))].
Proof.
  intros Hall. inversion Hall as [|? ? (Hwf0 & Hx0 & Hy0) Hrest]; subst.
  destruct (wf_image_spec _ Hwf0) as (_ & _ & Him & _).
  unfold mask_merge, reduce. cbn [map].
  replace (np_array m0)
    with (mkArray (ysize m0) (xsize m0)
            (tabulate (ysize m0) (xsize m0) (px (im m0))))
    by (unfold np_array; now rewrite <- Him).
  rewrite fold_bitwise_or.
  - cbn [bind]. unfold Image_fromarray. cbn [nrows ncols data].
    do 3 f_equal. apply tabulate_ext. intros i j _ _.
    unfold or_pixels. cbn [map fold_left]. now rewrite map_map.
  - apply Forall_map. eapply Forall_impl; [|exact Hrest].
    cbn. intros m (_ & Hx & Hy). now split.
Qed.

(** X3: merging a non-empty list of well-formed masks of one extent gives
    one mask of that extent whose every pixel is the bitwise OR of the
    pixels of all the masks at that place. *)
Theorem mask_merge_is_pixelwise_or (w h : Z) (masks : list Image)
    (Hne : masks <> [])
    (Hall : Forall (fun m => wf_image m = true /\ xsize m = w /\ ysize m = h)
              masks) :
  mask_merge masks = Ok [mkImage w h (tabulate h w (or_pixels masks))].
Proof.
  destruct masks as [|m0 rest]; [contradiction|]. now apply mask_merge_run.
Qed.

Lemma mask_merge_is_pixelwise_or_witness :
  mask_merge [mask23; mkImage 3 2 [[255; 0; 0]; [0; 0; 0]]] =
  Ok [mkImage 3 2 [[255; 255; 255]; [0; 0; 255]]].
Proof.
  refine (eq_trans
    (mask_merge_is_pixelwise_or 3 2
       [mask23; mkImage 3 2 [[255; 0; 0]; [0; 0; 0]]] _ _) eq_refl).
  - discriminate.
  - repeat constructor.
Defined.

(** X4: merging a single mask returns that mask, merging nothing raises
    [TypeError], and merging an all-black mask with a mask [b] of the same
    extent returns [b]. *)
Theorem mask_merge_units (a z b : Image)
    (Hz : wf_image z = true) (Hb : wf_image b = true)
    (Hx : xsize z = xsize b) (Hy : ysize z = ysize b)
    (Hblack : is_all_black z = true) :
  mask_merge [a] = Ok [a] /\
  mask_merge [] = Raise TypeError /\
  mask_merge [z; b] = Ok [b].
Proof.
  split; [|split].
  - unfold mask_merge. cbn. now rewrite Image_fromarray_np_array.
  - reflexivity.
  - rewrite (mask_merge_run (xsize b) (ysize b)) by (repeat constructor; assumption).
    destruct (wf_image_spec _ Hb) as (_ & _ & Him & _).
    apply (is_all_black_iff z Hz) in Hblack.
    destruct b as [wb hb rows]. cbn [xsize ysize im] in *. do 3 f_equal.
    etransitivity; [|symmetry; exact Him].
    apply tabulate_ext. intros i j Hi Hj. unfold or_pixels. cbn.
    now rewrite Hblack by lia.
Qed.

Lemma mask_merge_units_witness :
  mask_merge [mask23] = Ok [mask23] /\
  mask_merge [] = Raise TypeError /\
  mask_merge [mkImage 3 2 [[0; 0; 0]; [0; 0; 0]]; mask23] = Ok [mask23].
Proof.
  exact (mask_merge_units mask23 (mkImage 3 2 [[0; 0; 0]; [0; 0; 0]]) mask23
           eq_refl eq_refl eq_refl eq_refl eq_refl).
Defined.

Lemma ImageChops_invert_involutive m :
  ImageChops_invert (ImageChops_invert m) = m.
Proof.
  destruct m as [w h rows]. unfold ImageChops_invert. cbn [xsize ysize im].
  f_equal. rewrite map_map. rewrite <- (map_id rows) at 2.
  apply map_ext. intros row. rewrite map_map. rewrite <- (map_id row) at 2.
  apply map_ext. intros p. lia.
Qed.

(** X5: inverting a list of masks twice gives the list back, and inverting
    keeps the number of masks and the extent of each. *)
Theorem mask_invert_involutive (masks : list Image) :
  mask_invert (mask_invert masks) = masks /\
  length (mask_invert masks) = length masks /\
  map xsize (mask_invert masks) = map xsize masks /\
  map ysize (mask_invert masks) = map ysize masks.
Proof.
  unfold mask_invert. split; [|split; [|split]].
  - rewrite map_map. rewrite <- (map_id masks) at 2.
    apply map_ext. apply ImageChops_invert_involutive.
  - apply length_map.
  - rewrite map_map. now apply map_ext.
  - rewrite map_map. now apply map_ext.
Qed.

Lemma mask_merge_singleton masks out :
  mask_merge masks = Ok out -> length out = 1%nat.
Proof.
  unfold mask_merge. intros H. apply bind_ok in H.
  destruct H as (arr & _ & H). now injection H as <-.
Qed.

Lemma mask_merge_invert_shape masks mode out :
  mask_merge_invert masks mode = Ok out -> out = masks \/ length out = 1%nat.
Proof.
  unfold mask_merge_invert. intros H. apply bind_ok in H.
  destruct H as (n & _ & H).
  destruct ((n =? MergeInvert.NONE) || (len masks =? 0));
    [injection H as <-; now left|].
  destruct (n =? MergeInvert.MERGE);
    [right; now apply (mask_merge_singleton masks)|].
  destruct (n =? MergeInvert.MERGE_INVERT).
  { apply bind_ok in H. destruct H as (merged & Hm & H). injection H as <-.
    right. unfold mask_invert. rewrite length_map.
    now apply (mask_merge_singleton masks). }
  destruct (n =? MergeInvert.SUBTRACT); [|discriminate].
  destruct (negb (len masks =? 2)); [injection H as <-; now left|].
  repeat (apply bind_ok in H; destruct H as (? & _ & H)).
  injection H as <-. now right.
Qed.

(** X6: whatever [mask_merge_invert] returns is either the list it was
    given or a list of exactly one mask; with the mode MERGE or
    MERGE_INVERT and a list that is not empty it is one mask. *)
Theorem mask_merge_invert_same_or_single (masks : list Image) (mode : mode_arg)
    (out : list Image) (Hrun : mask_merge_invert masks mode = Ok out) :
  (out = masks \/ length out = 1%nat) /\
  (forall n, resolves mode n ->
     n = MergeInvert.MERGE \/ n = MergeInvert.MERGE_INVERT ->
     masks <> [] -> length out = 1%nat).
Proof.
  split; [now apply (mask_merge_invert_shape masks mode)|].
  intros n Hn Hmode Hne.
  rewrite (mask_merge_invert_resolved _ _ _ Hn) in Hrun.
  unfold mask_merge_invert in Hrun. cbn [bind] in Hrun.
  destruct (len masks =? 0) eqn:He; [apply len_zero_iff in He; contradiction|].
  destruct Hmode as [-> | ->]; cbn in Hrun.
  - now apply (mask_merge_singleton masks).
  - apply bind_ok in Hrun. destruct Hrun as (merged & Hm & Hrun).
    injection Hrun as <-. unfold mask_invert. rewrite length_map.
    now apply (mask_merge_singleton masks).
Qed.

Lemma mask_merge_invert_same_or_single_witness :
  mask_merge_invert [mask23; mask23] (ModeStr "Merge") = Ok [mask23] /\
  length [mask23] = 1%nat.
Proof.
  assert (H : mask_merge_invert [mask23; mask23] (ModeStr "Merge") = Ok [mask23])
    by reflexivity.
  split; [exact H|].
  apply (proj2 (mask_merge_invert_same_or_single _ _ _ H) 1).
  - right. exists "Merge"%string. split; reflexivity.
  - now left.
  - discriminate.
Defined.

(** ** Offset *)

Lemma ImagingOffset_up m dx dy :
  0 < xsize m -> 0 < ysize m ->
  ImagingOffset m dx (- dy) =
  mkImage (xsize m) (ysize m)
    (tabulate (ysize m) (xsize m) (fun i j =>
       px (im m) ((i + dy) mod ysize m) ((j - dx) mod xsize m))).
Proof.
  intros Hx Hy. rewrite ImagingOffset_eq by assumption.
  f_equal. apply tabulate_ext. intros i j _ _.
  now replace (i - - dy) with (i + dy) by ring.
Qed.

(** X7: on a mask of positive extent and for offsets that fit a C int,
    [x] and [-y] both, [offset] returns a mask of the same extent whose
    pixel at row [i] and column [j] is the pixel of the mask at row
    [i + y] and column [j - x], both taken modulo the extent: a positive
    [x] moves the content right, a positive [y] moves it up, and what
    leaves on one side comes back on the other. *)
Theorem offset_reads_shifted_pixel (m : Image) (x y i j : Z)
    (Hx : 0 < xsize m) (Hy : 0 < ysize m)
    (Hxr : - 2 ^ 31 <= x < 2 ^ 31) (Hyr : - 2 ^ 31 < y <= 2 ^ 31)
    (Hi : 0 <= i < ysize m) (Hj : 0 <= j < xsize m) :
  exists m',
    offset m x y = Ok m' /\
    xsize m' = xsize m /\
    ysize m' = ysize m /\
    px (im m') i j = px (im m) ((i + y) mod ysize m) ((j - x) mod xsize m).
Proof.
  eexists. split; [now apply offset_in_range|].
  rewrite ImagingOffset_up by assumption. cbn [xsize ysize im].
  split; [reflexivity|]. split; [reflexivity|]. now rewrite px_tabulate.
Qed.

Lemma offset_reads_shifted_pixel_witness :
  exists m',
    offset mask23 1 1 = Ok m' /\
    xsize m' = 3 /\ ysize m' = 2 /\
    px (im m') 0 0 = px (im mask23) ((0 + 1) mod 2) ((0 - 1) mod 3).
Proof.
  apply (offset_reads_shifted_pixel mask23 1 1 0 0); cbn; lia.
Defined.


(** X8: two shifts in a row are the shift by the sums, on every mask of
    positive extent, when the offsets of the two shifts and their sums fit
    a C int, [x] and [-y] each: then all three shifts return, and the
    second returns what the shift by the sums returns. *)
Theorem offset_compose (m : Image) (x y x' y' : Z)
    (Hx : 0 < xsize m) (Hy : 0 < ysize m)
    (Hxr : - 2 ^ 31 <= x < 2 ^ 31) (Hyr : - 2 ^ 31 < y <= 2 ^ 31)
    (Hxr' : - 2 ^ 31 <= x' < 2 ^ 31) (Hyr' : - 2 ^ 31 < y' <= 2 ^ 31)
    (Hxs : - 2 ^ 31 <= x + x' < 2 ^ 31) (Hys : - 2 ^ 31 < y + y' <= 2 ^ 31) :
  exists m1 m2,
    offset m x y = Ok m1 /\
    offset m1 x' y' = Ok m2 /\
    offset m (x + x') (y + y') = Ok m2.
Proof.
  exists (ImagingOffset m x (- y)), (ImagingOffset m (x + x') (- (y + y'))).
  split; [now apply offset_in_range|]. split; [|now apply offset_in_range].
  rewrite offset_in_range by assumption. f_equal.
  rewrite (ImagingOffset_up m x y) by assumption.
  rewrite ImagingOffset_up by (cbn; assumption).
  rewrite (ImagingOffset_up m (x + x')) by assumption.
  cbn [xsize ysize im]. f_equal. apply tabulate_ext. intros i j Hi Hj.
  rewrite px_tabulate by (split; apply Z.mod_pos_bound; lia).
  rewrite Zplus_mod_idemp_l, Zminus_mod_idemp_l. f_equal; f_equal; ring.
Qed.

Lemma offset_compose_witness :
  exists m1 m2,
    offset mask23 1 1 = Ok m1 /\
    offset m1 4 (- 3) = Ok m2 /\
    offset mask23 (1 + 4) (1 + - 3) = Ok m2.
Proof. apply (offset_compose mask23 1 1 4 (- 3)); cbn; lia. Defined.

(** X9: a shift by whole multiples of the width and the height changes
    nothing: when the offsets fit a C int with and without the multiples,
    [x] and [-y] each, [offset] returns the same mask for both. *)
Theorem offset_periodic (m : Image) (x y kx ky : Z)
    (Hx : 0 < xsize m) (Hy : 0 < ysize m)
    (Hxr : - 2 ^ 31 <= x < 2 ^ 31) (Hyr : - 2 ^ 31 < y <= 2 ^ 31)
    (Hxk : - 2 ^ 31 <= x + kx * xsize m < 2 ^ 31)
    (Hyk : - 2 ^ 31 < y + ky * ysize m <= 2 ^ 31) :
  exists m',
    offset m x y = Ok m' /\
    offset m (x + kx * xsize m) (y + ky * ysize m) = Ok m'.
Proof.
  eexists. split; [now apply offset_in_range|].
  rewrite offset_in_range by assumption. f_equal.
  rewrite !ImagingOffset_up by assumption. f_equal.
  apply tabulate_ext. intros i j Hi Hj. f_equal.
  - replace (i + (y + ky * ysize m)) with (i + y + ky * ysize m) by ring.
    apply Z.mod_add. lia.
  - replace (j - (x + kx * xsize m)) with (j - x + (- kx) * xsize m) by ring.
    apply Z.mod_add. lia.
Qed.

Lemma offset_periodic_witness :
  exists m',
    offset mask23 1 0 = Ok m' /\
    offset mask23 (1 + 2 * 3) (0 + (- 1) * 2) = Ok m'.
Proof. apply (offset_periodic mask23 1 0 2 (- 1)); cbn; lia. Defined.

(** ** Dilation and erosion, pixel by pixel *)

Lemma dilate_erode_pos m value :
  0 < value ->
  dilate_erode m value =
  mkImage (xsize m) (ysize m)
    (tabulate (ysize m) (xsize m) (fun i j =>
       fold_right Z.max 0
         (under_kernel (np_array m) (getStructuringElement_RECT value) i j))).
Proof.
  intros Hv. unfold dilate_erode.
  destruct (Z.eqb_spec value 0); [lia|].
  destruct (Z.gtb_spec value 0); [reflexivity|lia].
Qed.

Lemma dilate_erode_neg m value :
  value < 0 ->
  dilate_erode m value =
  mkImage (xsize m) (ysize m)
    (tabulate (ysize m) (xsize m) (fun i j =>
       fold_right Z.min 255
         (under_kernel (np_array m) (getStructuringElement_RECT (- value)) i j))).
Proof.
  intros Hv. unfold dilate_erode.
  destruct (Z.eqb_spec value 0); [lia|].
  destruct (Z.gtb_spec value 0); [lia|reflexivity].
Qed.

(** Only pixels of the array are read under the kernel. *)
Lemma under_kernel_in_range arr kernel i j (P : Z -> Prop) :
  (forall y x, 0 <= y < nrows arr -> 0 <= x < ncols arr -> P (px (data arr) y x)) ->
  Forall P (under_kernel arr kernel i j).
Proof.
  intros HP. apply Forall_forall. intros v Hin. unfold under_kernel in Hin.
  apply in_flat_map in Hin. destruct Hin as (ki & _ & Hin).
  apply in_flat_map in Hin. destruct Hin as (kj & _ & Hin).
  match type of Hin with In _ (if ?c then _ else _) => destruct c eqn:Hc end;
    [|destruct Hin].
  destruct Hin as [<-|[]].
  rewrite !andb_true_iff, !Z.leb_le, !Z.ltb_lt in Hc. apply HP; lia.
Qed.

Lemma wf_tabulate w h f :
  0 < w < 2 ^ 31 -> 0 < h < 2 ^ 31 ->
  (forall i j, 0 <= i < h -> 0 <= j < w -> 0 <= f i j < 256) ->
  wf_image (mkImage w h (tabulate h w f)) = true.
Proof.
  intros Hw Hh Hf. unfold wf_image, wf_extent. cbn [xsize ysize im].
  rewrite !andb_true_iff, !Z.ltb_lt, Z.eqb_eq. split; [split; [lia|]|].
  - unfold len, tabulate. rewrite length_map, axis_length; lia.
  - apply forallb_forall. intros row Hrow. unfold tabulate in Hrow.
    apply in_map_iff in Hrow. destruct Hrow as (i & <- & Hi).
    apply in_axis in Hi. unfold wf_row. apply andb_true_iff. split.
    + apply Z.eqb_eq. unfold len. rewrite length_map, axis_length; lia.
    + apply forallb_forall. intros p Hp. apply in_map_iff in Hp.
      destruct Hp as (j & <- & Hj). apply in_axis in Hj.
      specialize (Hf i j Hi Hj).
      apply andb_true_iff. split; [apply Z.leb_le|apply Z.ltb_lt]; lia.
Qed.

Lemma fold_max_bytes l :
  Forall (fun p => 0 <= p < 256) l -> 0 <= fold_right Z.max 0 l < 256.
Proof. induction 1; cbn; lia. Qed.

Lemma fold_min_bytes l :
  Forall (fun p => 0 <= p < 256) l -> 0 <= fold_right Z.min 255 l < 256.
Proof. induction 1; cbn; lia. Qed.

Lemma fold_max_binary l :
  Forall (fun p => p = 0 \/ p = 255) l ->
  fold_right Z.max 0 l = 0 \/ fold_right Z.max 0 l = 255.
Proof. induction 1; cbn; lia. Qed.

Lemma fold_min_binary l :
  Forall (fun p => p = 0 \/ p = 255) l ->
  fold_right Z.min 255 l = 0 \/ fold_right Z.min 255 l = 255.
Proof. induction 1; cbn; lia. Qed.

Lemma fold_max_zero l :
  Forall (fun p => p = 0) l -> fold_right Z.max 0 l = 0.
Proof. induction 1; cbn; lia. Qed.

Lemma wf_extent_of_image m : wf_image m = true -> wf_extent m = true.
Proof.
  unfold wf_image. rewrite !andb_true_iff. tauto.
Qed.

(** X10: [dilate_erode] keeps the extent and the well-formedness of a
    mask, and a mask of pixels 0 and 255 stays one, for every value. *)
Theorem dilate_erode_keeps_shape (m : Image) (value : Z)
    (Hwf : wf_image m = true) :
  wf_image (dilate_erode m value) = true /\
  xsize (dilate_erode m value) = xsize m /\
  ysize (dilate_erode m value) = ysize m /\
  (binary_mask m -> binary_mask (dilate_erode m value)).
Proof.
  destruct (wf_image_spec m Hwf) as (_ & _ & _ & Hpx).
  pose proof (wf_extent_spec m (wf_extent_of_image m Hwf)) as [Hx Hy].
  destruct (Z.lt_trichotomy value 0) as [Hv|[->|Hv]].
  - rewrite dilate_erode_neg by exact Hv. cbn [xsize ysize im].
    split; [|split; [reflexivity|split; [reflexivity|]]].
    + apply wf_tabulate; [assumption..|]. intros i j _ _.
      apply fold_min_bytes, under_kernel_in_range. intros; apply Hpx.
    + intros Hbin i j Hi Hj. cbn [xsize ysize im] in *.
      rewrite px_tabulate by assumption.
      apply fold_min_binary, under_kernel_in_range. exact Hbin.
  - split; [exact Hwf|]. split; [reflexivity|]. split; [reflexivity|]. tauto.
  - rewrite dilate_erode_pos by exact Hv. cbn [xsize ysize im].
    split; [|split; [reflexivity|split; [reflexivity|]]].
    + apply wf_tabulate; [assumption..|]. intros i j _ _.
      apply fold_max_bytes, under_kernel_in_range. intros; apply Hpx.
    + intros Hbin i j Hi Hj. cbn [xsize ysize im] in *.
      rewrite px_tabulate by assumption.
      apply fold_max_binary, under_kernel_in_range. exact Hbin.
Qed.

Lemma dilate_erode_keeps_shape_witness :
  wf_image mask23 = true /\
  dilate_erode mask23 2 = mkImage 3 2 [[0; 255; 255]; [0; 255; 255]] /\
  wf_image (dilate_erode mask23 2) = true.
Proof.
  split; [reflexivity|]. split; [reflexivity|].
  exact (proj1 (dilate_erode_keeps_shape mask23 2 eq_refl)).
Defined.

(** Under the kernel of side 1 only the pixel itself is read. *)
Lemma under_kernel_unit arr i j :
  0 <= i < nrows arr -> 0 <= j < ncols arr ->
  under_kernel arr (getStructuringElement_RECT 1) i j = [px (data arr) i j].
Proof.
  intros Hi Hj. unfold under_kernel, getStructuringElement_RECT.
  cbn [nrows ncols data]. change (axis 1) with [0]. cbn [flat_map app].
  change (1 / 2) with 0. change (px (tabulate 1 1 (fun _ _ => 1)) 0 0) with 1.
  rewrite !Z.add_0_r, !Z.sub_0_r, !app_nil_r.
  match goal with
  | |- (if ?c then _ else _) = _ => assert (Hc : c = true)
  end.
  { rewrite !andb_true_iff, !Z.leb_le, !Z.ltb_lt. repeat split; lia. }
  now rewrite Hc.
Qed.

(** X11: with value 1 or -1, a kernel of a single element, [dilate_erode]
    returns a mask equal to the well-formed mask it is given. *)
Theorem dilate_erode_unit_kernel (m : Image) (Hwf : wf_image m = true) :
  dilate_erode m 1 = m /\ dilate_erode m (- 1) = m.
Proof.
  destruct (wf_image_spec m Hwf) as (_ & _ & Him & Hpx).
  split.
  - rewrite dilate_erode_pos by lia. destruct m as [w h rows].
    cbn [xsize ysize im np_array] in *. f_equal.
    etransitivity; [|symmetry; exact Him].
    apply tabulate_ext. intros i j Hi Hj.
    rewrite under_kernel_unit by assumption. unfold np_array.
    cbn [fold_right data im].
    specialize (Hpx i j). lia.
  - rewrite dilate_erode_neg by lia. destruct m as [w h rows].
    cbn [xsize ysize im np_array] in *. f_equal.
    etransitivity; [|symmetry; exact Him].
    apply tabulate_ext. intros i j Hi Hj. change (- - 1) with 1.
    rewrite under_kernel_unit by assumption. unfold np_array.
    cbn [fold_right data im].
    specialize (Hpx i j). lia.
Qed.

Lemma dilate_erode_unit_kernel_witness :
  wf_image mask23 = true /\
  dilate_erode mask23 1 = mask23 /\ dilate_erode mask23 (- 1) = mask23.
Proof.
  split; [reflexivity|]. exact (dilate_erode_unit_kernel mask23 eq_refl).
Defined.

Lemma dilate_erode_black (m : Image) (value : Z) :
  wf_image m = true -> is_all_black m = true ->
  is_all_black (dilate_erode m value) = true.
Proof.
  intros Hwf Hblack.
  pose proof (proj1 (is_all_black_iff m Hwf) Hblack) as Hz.
  destruct (wf_image_spec m Hwf) as (_ & _ & _ & Hpx).
  destruct (Z.lt_trichotomy value 0) as [Hv|[->|Hv]].
  - rewrite dilate_erode_neg by exact Hv.
    unfold is_all_black. cbn [np_array data im]. apply Z.eqb_eq.
    apply countNonZero_tabulate_zero_iff. intros i j Hi Hj.
    assert (Hv' : 0 < - value) by lia.
    pose proof (fold_min_le _ _
      (under_kernel_self (np_array m) (- value) i j Hv' Hi Hj)) as Hle.
    pose proof (fold_min_nonneg _
      (under_kernel_pixels (np_array m) (getStructuringElement_RECT (- value)) i j
         (fun p => 0 <= p) (fun y x => proj1 (Hpx y x)))) as Hnn.
    cbn [np_array data] in Hle. rewrite (Hz i j Hi Hj) in Hle. lia.
  - exact Hblack.
  - rewrite dilate_erode_pos by exact Hv.
    unfold is_all_black. cbn [np_array data im]. apply Z.eqb_eq.
    apply countNonZero_tabulate_zero_iff. intros i j Hi Hj.
    apply fold_max_zero, under_kernel_in_range. exact Hz.
Qed.

(** X12: an all-black well-formed mask is all black after [dilate_erode],
    for every value: neither dilation nor erosion lights a pixel of it. *)
Theorem dilate_erode_keeps_black (m : Image) (value : Z)
    (Hwf : wf_image m = true) (Hblack : is_all_black m = true) :
  is_all_black (dilate_erode m value) = true.
Proof. now apply dilate_erode_black. Qed.

Lemma dilate_erode_keeps_black_witness :
  is_all_black (dilate_erode (mkImage 3 2 [[0; 0; 0]; [0; 0; 0]]) 3) = true.
Proof.
  exact (dilate_erode_keeps_black (mkImage 3 2 [[0; 0; 0]; [0; 0; 0]]) 3
           eq_refl eq_refl).
Defined.

(** ** The pipeline *)

Lemma comprehension_length {A B : Type} (f : A -> result B) l out :
  comprehension f l = Ok out -> length out = length l.
Proof.
  revert out. induction l as [|a l IH]; intros out H; cbn in H.
  - now injection H as <-.
  - destruct (f a); [|discriminate]. cbn [bind] in H.
    destruct (comprehension f l) as [bs|]; [|discriminate].
    injection H as <-. cbn. now rewrite (IH bs eq_refl).
Qed.


Lemma filter_length_le {A : Type} (f : A -> bool) (l : list A) :
  (length (filter f l) <= length l)%nat.
Proof. induction l as [|a l IH]; cbn; [lia|]. destruct (f a); cbn; lia. Qed.

(** X13: whatever [mask_preprocess] returns has at most as many masks as
    it was given. *)
Theorem mask_preprocess_never_grows (masks : list Image)
    (kernel x_offset y_offset : Z) (mode : mode_arg) (out : list Image)
    (Hrun : mask_preprocess masks kernel x_offset y_offset mode = Ok out) :
  (length out <= length masks)%nat.
Proof.
  unfold mask_preprocess in Hrun.
  destruct (len masks =? 0) eqn:He; [injection Hrun as <-; cbn; lia|].
  assert (Hpos : (1 <= length masks)%nat).
  { apply Z.eqb_neq in He. unfold len in He. lia. }
  match type of Hrun with
  | bind ?r _ = _ => destruct r as [shifted|e] eqn:Hshift; [|discriminate]
  end.
  assert (Hlen : length shifted = length masks).
  { destruct (negb (x_offset =? 0) || negb (y_offset =? 0)).
    - exact (comprehension_length _ _ _ Hshift).
    - now injection Hshift as <-. }
  cbn [bind] in Hrun. cbv zeta in Hrun.
  match type of Hrun with
  | mask_merge_invert ?ms _ = _ =>
      assert (Hle : (length ms <= length masks)%nat)
  end.
  { rewrite <- Hlen. destruct (negb (kernel =? 0));
      repeat first [rewrite length_map | etransitivity; [apply filter_length_le|]];
      lia. }
  apply mask_merge_invert_shape in Hrun. destruct Hrun as [->|Hone]; lia.
Qed.

Lemma mask_preprocess_never_grows_witness :
  mask_preprocess [mask23; mask23] (- 2) 1 0 (ModeInt MergeInvert.NONE) =
    Ok [mkImage 3 2 [[255; 0; 0]; [255; 0; 0]];
        mkImage 3 2 [[255; 0; 0]; [255; 0; 0]]] /\
  (2 <= 2)%nat.
Proof.
  assert (H : mask_preprocess [mask23; mask23] (- 2) 1 0 (ModeInt MergeInvert.NONE) =
    Ok [mkImage 3 2 [[255; 0; 0]; [255; 0; 0]];
        mkImage 3 2 [[255; 0; 0]; [255; 0; 0]]]) by reflexivity.
  split; [exact H|].
  exact (mask_preprocess_never_grows _ _ _ _ _ _ H).
Defined.






(** X16: with kernel 0, offsets 0 and the mode NONE, [mask_preprocess]
    returns the list it was given, all-black masks included; and on the
    empty list it returns the empty list whatever the other arguments,
    an alias outside the table included. *)
Theorem mask_preprocess_defaults (masks : list Image) (mode : mode_arg)
    (Hmode : resolves mode MergeInvert.NONE) :
  mask_preprocess masks 0 0 0 mode = Ok masks /\
  forall kernel x_offset y_offset any_mode,
    mask_preprocess [] kernel x_offset y_offset any_mode = Ok [].
Proof.
  split; [|reflexivity].
  unfold mask_preprocess. destruct (len masks =? 0) eqn:He.
  - apply len_zero_iff in He. now subst.
  - cbn. rewrite (mask_merge_invert_resolved _ _ _ Hmode). reflexivity.
Qed.

Lemma mask_preprocess_defaults_witness :
  mask_preprocess [mkImage 1 1 [[0]]; mask23] 0 0 0 (ModeStr "None")
    = Ok [mkImage 1 1 [[0]]; mask23] /\
  mask_preprocess [] 3 1 1 (ModeStr "Invert") = Ok [] /\
  mask_merge_invert [] (ModeStr "Invert") = Raise ValueError.
Proof.
  destruct (mask_preprocess_defaults [mkImage 1 1 [[0]]; mask23] (ModeStr "None"))
    as [Hid Hempty].
  - right. exists "None"%string. split; reflexivity.
  - split; [exact Hid|]. split; [apply Hempty|reflexivity].
Defined.

(** ** Filter k largest, a negative [k] *)

(** The slice [l[-k:]] for a negative [k], that is [l[n:]] with [n = -k]:
    all but the first [n] elements. *)
Lemma slice_from_drop {A : Type} (l : list A) k :
  k < 0 -> slice_from l (- k) = skipn (Z.to_nat (Z.min (- k) (len l))) l.
Proof.
  intros Hk. unfold slice_from.
  destruct (Z.ltb_spec (- k) 0) as [?|_]; [lia|reflexivity].
Qed.

(** What is kept and what is dropped when the sorted indices are cut at
    position [s]. *)
Lemma sorted_areas_cut (bs : list bbox) (s : nat) (out : list bbox) :
  picks bs (map snd (skipn s (sorted_areas bs))) out ->
  Permutation (map snd (firstn s (sorted_areas bs)) ++
               map snd (skipn s (sorted_areas bs)))
    (range (length bs)) /\
  StronglySorted area_le (map bbox_area out) /\
  (forall i j bi bj,
     In i (map snd (firstn s (sorted_areas bs))) ->
     In j (map snd (skipn s (sorted_areas bs))) ->
     nth_error bs i = Some bi -> nth_error bs j = Some bj ->
     area_le (bbox_area bi) (bbox_area bj)).
Proof.
  intros Hp. set (S := sorted_areas bs) in *.
  destruct (StronglySorted_split _ s S (sorted_areas_ascending _)) as [Hsk Hfs].
  split; [|split].
  - rewrite <- map_app, firstn_skipn. apply sorted_areas_perm.
  - rewrite (picks_pairs bbox_area bs (skipn s S) out).
    + now apply StronglySorted_map.
    + intros a i Hin. apply sorted_areas_in. fold S.
      rewrite <- (firstn_skipn s S). apply in_or_app. now right.
    + exact Hp.
  - intros i j bi bj Hi Hj Hbi Hbj.
    apply in_map_iff in Hi, Hj.
    destruct Hi as ([a i'] & Hi' & Hi), Hj as ([b j'] & Hj' & Hj).
    cbn in Hi', Hj'. subst i' j'.
    assert (Ha : a = bbox_area bi).
    { apply (sorted_areas_in bs a i); [|exact Hbi]. fold S.
      rewrite <- (firstn_skipn s S). apply in_or_app. now left. }
    assert (Hb : b = bbox_area bj).
    { apply (sorted_areas_in bs b j); [|exact Hbj]. fold S.
      rewrite <- (firstn_skipn s S). apply in_or_app. now right. }
    subst a b. exact (Hfs _ _ Hi Hj).
Qed.

Lemma sorted_areas_length bs : length (sorted_areas bs) = length bs.
Proof.
  rewrite <- (length_map snd (sorted_areas bs)).
  rewrite (Permutation_length (sorted_areas_perm bs)).
  unfold range. apply length_seq.
Qed.

(** X17: for a negative [k], [filter_k_largest] drops the [min (-k) len]
    boxes of smallest area and keeps the others, with their masks, in
    ascending order of area; from [k <= -len] on nothing is kept. *)
Theorem filter_k_largest_negative_drops_smallest (pred : PredictOutput) (k : Z)
    (Hpred : PredictionSet pred = true) (Hk : k < 0) :
  exists idx dropped pred',
    filter_k_largest pred k = Ok pred' /\
    Permutation (dropped ++ idx) (range (length (bboxes pred))) /\
    length dropped = Z.to_nat (Z.min (- k) (len (bboxes pred))) /\
    picks (bboxes pred) idx (bboxes pred') /\
    picks (masks pred) idx (masks pred') /\
    StronglySorted area_le (map bbox_area (bboxes pred')) /\
    (forall i j bi bj,
       In i dropped -> In j idx ->
       nth_error (bboxes pred) i = Some bi ->
       nth_error (bboxes pred) j = Some bj ->
       area_le (bbox_area bi) (bbox_area bj)).
Proof.
  unfold PredictionSet in Hpred. apply andb_true_iff in Hpred.
  destruct Hpred as [Hal _]. apply Nat.eqb_eq in Hal.
  destruct (len (bboxes pred) =? 0) eqn:He.
  - apply len_zero_iff in He.
    assert (Hm : masks pred = [])
      by (apply length_zero_iff_nil; rewrite <- Hal, He; reflexivity).
    exists [], [], pred. unfold filter_k_largest. rewrite He, Hm. cbn.
    split; [reflexivity|]. split; [constructor|]. split; [lia|].
    split; [constructor|]. split; [constructor|].
    split; [constructor|]. intros i j bi bj [].
  - assert (Hgo : (len (bboxes pred) =? 0) || (k =? 0) = false).
    { rewrite He. cbn. apply Z.eqb_neq. lia. }
    destruct (filter_k_largest_run pred k Hgo Hal) as (bs & ms & Hrun & Hpb & Hpm).
    rewrite np_argsort_areas, slice_from_drop, skipn_map in Hpb, Hpm by exact Hk.
    set (s := Z.to_nat (Z.min (- k) (len (map snd (sorted_areas (bboxes pred)))))) in *.
    destruct (sorted_areas_cut (bboxes pred) s bs Hpb) as (Hperm & Hsorted & Hcut).
    exists (map snd (skipn s (sorted_areas (bboxes pred)))),
           (map snd (firstn s (sorted_areas (bboxes pred)))),
           (set_masks (set_bboxes pred bs) ms).
    split; [exact Hrun|]. split; [exact Hperm|]. split.
    { rewrite length_map, length_firstn, sorted_areas_length.
      unfold s, len. rewrite length_map, sorted_areas_length. lia. }
    split; [exact Hpb|]. split; [exact Hpm|]. split; assumption.
Qed.

Lemma filter_k_largest_negative_drops_smallest_witness :
  PredictionSet pred_ratio = true /\
  filter_k_largest pred_ratio (- 1) =
    Ok (mkPredictOutput
          [mkBbox 0 0 8 8; mkBbox 0 0 16 16]
          [mkImage 1 1 [[1]]; mkImage 1 1 [[3]]]
          [0.75%float; 0.5%float; 0.25%float]
          (mkImage 16 16 [])) /\
  filter_k_largest pred_ratio (- 3) =
    Ok (mkPredictOutput [] [] [0.75%float; 0.5%float; 0.25%float]
          (mkImage 16 16 [])) /\
  exists idx dropped pred',
    filter_k_largest pred_ratio (- 1) = Ok pred' /\
    Permutation (dropped ++ idx) (range (length (bboxes pred_ratio))) /\
    length dropped = Z.to_nat (Z.min (- - 1) (len (bboxes pred_ratio))) /\
    picks (bboxes pred_ratio) idx (bboxes pred') /\
    picks (masks pred_ratio) idx (masks pred') /\
    StronglySorted area_le (map bbox_area (bboxes pred')) /\
    (forall i j bi bj,
       In i dropped -> In j idx ->
       nth_error (bboxes pred_ratio) i = Some bi ->
       nth_error (bboxes pred_ratio) j = Some bj ->
       area_le (bbox_area bi) (bbox_area bj)).
Proof.
  split; [reflexivity|]. split; [vm_compute; reflexivity|].
  split; [vm_compute; reflexivity|].
  apply (filter_k_largest_negative_drops_smallest pred_ratio (- 1) eq_refl). lia.
Defined.

(** ** Failures of the filters and the sorter *)

(** X18: [filter_by_ratio] raises [ZeroDivisionError] when there is a box
    and the reference image has no area; with no box it returns the set
    whatever the image. *)
Theorem filter_by_ratio_zero_area (pred : PredictOutput) (low high : float)
    (Harea : xsize (preview pred) * ysize (preview pred) = 0) :
  (bboxes pred <> [] -> filter_by_ratio pred low high = Raise ZeroDivisionError) /\
  (bboxes pred = [] -> filter_by_ratio pred low high = Ok pred).
Proof.
  unfold filter_by_ratio. split.
  - intros Hne. destruct (bboxes pred) as [|b bs] eqn:Hb; [contradiction|].
    assert (He : (len (b :: bs) =? 0) = false)
      by (apply Z.eqb_neq; unfold len; cbn [length]; lia).
    rewrite He. cbv zeta. rewrite Harea. reflexivity.
  - intros ->. reflexivity.
Qed.

Lemma filter_by_ratio_zero_area_witness :
  filter_by_ratio
    (mkPredictOutput [mkBbox 0 0 1 1] [mask23] [] (mkImage 0 5 [])) 0 1
  = Raise ZeroDivisionError.
Proof.
  refine (proj1 (filter_by_ratio_zero_area
    (mkPredictOutput [mkBbox 0 0 1 1] [mask23] [] (mkImage 0 5 [])) 0 1 eq_refl) _).
  discriminate.
Defined.

Lemma comprehension_getitem_fails {A : Type} (l : list A) idx :
  Exists (fun i => (length l <= i)%nat) idx ->
  comprehension (getitem l) idx = Raise IndexError.
Proof.
  induction idx as [|i idx IH]; intros Hex; [inversion Hex|].
  cbn. unfold getitem at 1. destruct (nth_error l i) as [a|] eqn:Ha.
  - cbn. rewrite IH; [reflexivity|].
    inversion Hex as [? ? Hi|]; subst; [|assumption].
    apply nth_error_None in Hi. congruence.
  - reflexivity.
Qed.

(** The run of [sort_bboxes] whatever the number of masks: the boxes are
    always picked, and then the masks are looked up. *)
Lemma sort_bboxes_run_masks dist pred order key :
  key_for dist pred order key ->
  (2 <= length (bboxes pred))%nat ->
  exists bs,
    picks (bboxes pred) (sorted_index key (bboxes pred)) bs /\
    sort_bboxes dist pred order =
    (ms <- comprehension (getitem (masks pred)) (sorted_index key (bboxes pred)) ;;
     Ok (set_masks (set_bboxes pred bs) ms)).
Proof.
  intros Hkey Hlen.
  destruct (comprehension_getitem (bboxes pred) (sorted_index key (bboxes pred)))
    as (bs & Hbs & Hpb); [apply sorted_index_in_range|].
  exists bs. split; [exact Hpb|].
  assert (Hle : (len (bboxes pred) <=? 1) = false)
    by (apply Z.leb_gt; unfold len; lia).
  unfold sort_bboxes. rewrite Hle. unfold sorted_index in Hbs |- *.
  destruct Hkey as [[-> ->]|[(-> & cx & cy & Hcx & Hcy & ->)|[-> ->]]];
    cbn [Z.eqb SortBy.NONE SortBy.LEFT_TO_RIGHT SortBy.CENTER_TO_EDGE
         SortBy.AREA Pos.eqb orb bind];
    try rewrite Hcx; try rewrite Hcy; cbn [bind];
    unfold sorted; rewrite comprehension_keys; cbn [bind];
    rewrite Hbs; cbn [bind set_bboxes masks]; reflexivity.
Qed.

(** X19: with at least two boxes, one of the three sort orders and a
    reference image of positive extent, [sort_bboxes] raises [IndexError]
    when there are fewer masks than boxes, and when there are more it
    returns as many masks as boxes: the surplus masks are dropped. *)
Theorem sort_bboxes_unequal_lengths dist (pred : PredictOutput) (order : Z)
    (Hwf : wf_extent (preview pred) = true) (Horder : 1 <= order <= 3)
    (Hlen : (2 <= length (bboxes pred))%nat) :
  ((length (masks pred) < length (bboxes pred))%nat ->
     sort_bboxes dist pred order = Raise IndexError) /\
  ((length (bboxes pred) <= length (masks pred))%nat ->
     exists pred',
       sort_bboxes dist pred order = Ok pred' /\
       length (bboxes pred') = length (bboxes pred) /\
       length (masks pred') = length (bboxes pred)).
Proof.
  destruct (key_for_exists dist pred order Hwf Horder) as [key Hkey].
  destruct (sort_bboxes_run_masks dist pred order key Hkey Hlen) as (bs & Hpb & Hrun).
  rewrite Hrun. split.
  - intros Hfew. rewrite comprehension_getitem_fails; [reflexivity|].
    apply Exists_exists. exists (length (masks pred)). split; [|lia].
    eapply Permutation_in; [symmetry; apply sorted_index_perm|].
    apply in_seq. lia.
  - intros Hmany.
    destruct (comprehension_getitem (masks pred) (sorted_index key (bboxes pred)))
      as (ms & Hms & Hpm).
    { eapply Forall_impl; [|apply sorted_index_in_range]. cbn. intros; lia. }
    rewrite Hms. cbn [bind]. eexists. split; [reflexivity|]. cbn.
    rewrite (picks_length _ _ _ Hpb), (picks_length _ _ _ Hpm).
    rewrite (Permutation_length (sorted_index_perm key (bboxes pred))).
    unfold range. rewrite length_seq. split; reflexivity.
Qed.

Lemma sort_bboxes_unequal_lengths_witness :
  sort_bboxes euclid
    (mkPredictOutput [mkBbox 5 5 15 15; mkBbox 0 0 10 10] [mask23] [] preview100)
    SortBy.AREA = Raise IndexError /\
  sort_bboxes euclid
    (mkPredictOutput [mkBbox 5 5 15 15; mkBbox 0 0 10 10]
       [mkImage 1 1 [[1]]; mkImage 1 1 [[2]]; mkImage 1 1 [[3]]] [] preview100)
    SortBy.LEFT_TO_RIGHT =
  Ok (mkPredictOutput [mkBbox 0 0 10 10; mkBbox 5 5 15 15]
        [mkImage 1 1 [[2]]; mkImage 1 1 [[1]]] [] preview100).
Proof.
  split.
  - refine (proj1 (sort_bboxes_unequal_lengths euclid
      (mkPredictOutput [mkBbox 5 5 15 15; mkBbox 0 0 10 10] [mask23] [] preview100)
      SortBy.AREA eq_refl _ _) _);
      unfold SortBy.AREA; cbn; lia.
  - vm_compute. reflexivity.
Defined.

(** ** The sorter orders by the key *)

Lemma sf_leb_not_ltb a b : SFleb a b = true -> SFltb b a = false.
Proof. sf_cases. Qed.

Lemma sf_opp_leb a b : SFleb (SFopp a) (SFopp b) = SFleb b a.
Proof. unfold SFopp. sf_cases. Qed.

Lemma sf_opp_eqb a : SFeqb (SFopp a) (SFopp a) = SFeqb a a.
Proof. unfold SFopp. sf_cases. Qed.

Lemma float_leb_not_ltb (a b : float) :
  (a <=? b)%float = true -> (b <? a)%float = false.
Proof. rewrite leb_spec, ltb_spec. apply sf_leb_not_ltb. Qed.

Lemma float_opp_leb (a b : float) : (- a <=? - b)%float = (b <=? a)%float.
Proof. rewrite !leb_spec, !opp_spec. apply sf_opp_leb. Qed.

Lemma float_opp_nan (a : float) : is_nan (- a) = is_nan a.
Proof. unfold is_nan. rewrite !eqb_spec, !opp_spec. now rewrite sf_opp_eqb. Qed.

Lemma StronglySorted_weaken_in {A : Type} (R S : A -> A -> Prop)
    (P : A -> Prop) l :
  (forall a b, P b -> R a b -> S a b) ->
  Forall P l -> StronglySorted R l -> StronglySorted S l.
Proof.
  intros HRS HP. induction 1 as [|x l Hs IH Hx]; constructor.
  - apply IH. now inversion HP.
  - inversion HP as [|? ? _ HPl]; subst.
    rewrite Forall_forall in *. intros y Hy. apply HRS; [now apply HPl|now apply Hx].
Qed.

Lemma StronglySorted_unmap {A B : Type} (f : A -> B) (R : B -> B -> Prop) l :
  StronglySorted R (map f l) -> StronglySorted (fun a b => R (f a) (f b)) l.
Proof.
  induction l as [|x l IH]; cbn; intros H; [constructor|].
  apply StronglySorted_inv in H. destruct H as [Hs Hx].
  constructor; [now apply IH|]. rewrite Forall_map in Hx. exact Hx.
Qed.

(** Without NaN among the keys the sorted pairs ascend by [<=]. *)
Lemma sorted_pairs_ascending (key : bbox -> float) (bs : list bbox) :
  Forall (fun b => is_nan (key b) = false) bs ->
  StronglySorted (fun p q : float * nat => (fst p <=? fst q)%float = true)
    (stable_sort (fun p q => (fst p <? fst q)%float)
       (combine (map key bs) (range (length bs)))).
Proof.
  intros Hnan. set (pairs := combine (map key bs) (range (length bs))).
  assert (Hp : Forall (fun p : float * nat => is_nan (fst p) = false) pairs).
  { apply Forall_forall. intros [a i] Hin.
    apply in_combine_map_key in Hin. destruct Hin as (b & Hb & ->).
    rewrite Forall_forall in Hnan. apply Hnan. eapply nth_error_In, Hb. }
  rewrite (stable_sort_ext _ (fun p q => np_lt (fst p) (fst q))).
  - apply (StronglySorted_weaken_in
             (fun p q => area_le (fst p) (fst q)) _
             (fun p => is_nan (fst p) = false)).
    + intros p q Hq [Hle|Hn]; [exact Hle|congruence].
    + eapply Permutation_Forall; [symmetry; apply stable_sort_perm|exact Hp].
    + eapply StronglySorted_weaken; [|apply stable_sort_ascending].
      * intros p q H. now apply area_le_iff.
      * intros p q. apply np_lt_asym.
      * intros p q r. apply np_le_trans.
  - intros p q _ Hq. symmetry. apply np_lt_no_nan.
    rewrite Forall_forall in Hp. now apply Hp.
Qed.

Lemma sort_index_ascending (key : bbox -> float) (bs out : list bbox) :
  Forall (fun b => is_nan (key b) = false) bs ->
  picks bs (sort_index key bs) out ->
  StronglySorted (fun a b => (key a <=? key b)%float = true) out.
Proof.
  intros Hnan Hp. unfold sort_index in Hp.
  apply (StronglySorted_unmap key (fun x y => (x <=? y)%float = true)).
  rewrite (picks_pairs key bs
             (stable_sort (fun p q : float * nat => (fst p <? fst q)%float)
                (combine (map key bs) (range (length bs)))) out);
    [| |exact Hp].
  - apply StronglySorted_map. now apply sorted_pairs_ascending.
  - intros a i Hin b Hb.
    eapply Permutation_in in Hin; [|apply stable_sort_perm].
    apply in_combine_map_key in Hin. destruct Hin as (b' & Hb' & ->). congruence.
Qed.

Lemma StronglySorted_short {A : Type} (R : A -> A -> Prop) l :
  (length l <= 1)%nat -> StronglySorted R l.
Proof.
  destruct l as [|a [|b l]]; cbn; intros H; [constructor| |lia].
  constructor; constructor.
Qed.

(** The boxes [sort_bboxes] returns ascend by the key, when no key is a
    NaN. *)
Lemma sort_bboxes_ascending dist pred order key :
  PredictionSet pred = true ->
  key_for dist pred order key ->
  Forall (fun b => is_nan (key b) = false) (bboxes pred) ->
  exists pred',
    sort_bboxes dist pred order = Ok pred' /\
    StronglySorted (fun a b => (key a <=? key b)%float = true) (bboxes pred').
Proof.
  intros Hpred Hkey Hnan.
  unfold PredictionSet in Hpred. apply andb_true_iff in Hpred.
  destruct Hpred as [Hal Hwf]. apply Nat.eqb_eq in Hal.
  destruct (Nat.le_gt_cases (length (bboxes pred)) 1) as [Hshort|Hlong].
  - exists pred. split; [now apply sort_bboxes_short|now apply StronglySorted_short].
  - destruct (sort_bboxes_run dist pred order key Hkey Hlong Hal)
      as (bs & ms & Hrun & Hpb & _).
    rewrite (sorted_index_no_nan key _ Hnan) in Hpb.
    eexists. split; [exact Hrun|]. cbn. now apply (sort_index_ascending key (bboxes pred)).
Qed.

(** X20: on a prediction set whose keys are not NaN, LEFT_TO_RIGHT returns
    the boxes with ascending left edge [x1], AREA returns them with
    descending area, the largest first, and CENTER_TO_EDGE returns them
    with ascending distance from the centre of the reference image. *)
Theorem sort_bboxes_orders_by_key dist (pred : PredictOutput)
    (Hpred : PredictionSet pred = true) :
  (Forall (fun b => is_nan (x1 b) = false) (bboxes pred) ->
   exists pred',
     sort_bboxes dist pred SortBy.LEFT_TO_RIGHT = Ok pred' /\
     StronglySorted (fun a b => (x1 a <=? x1 b)%float = true) (bboxes pred')) /\
  (Forall (fun b => is_nan (bbox_area b) = false) (bboxes pred) ->
   exists pred',
     sort_bboxes dist pred SortBy.AREA = Ok pred' /\
     StronglySorted (fun a b => (bbox_area b <=? bbox_area a)%float = true)
       (bboxes pred')) /\
  (exists cx cy,
     int_truediv (xsize (preview pred)) 2 = Ok cx /\
     int_truediv (ysize (preview pred)) 2 = Ok cy /\
     (Forall (fun b => is_nan (_key_center_to_edge dist (cx, cy) b) = false)
        (bboxes pred) ->
      exists pred',
        sort_bboxes dist pred SortBy.CENTER_TO_EDGE = Ok pred' /\
        StronglySorted
          (fun a b => (_key_center_to_edge dist (cx, cy) a
                       <=? _key_center_to_edge dist (cx, cy) b)%float = true)
          (bboxes pred'))).
Proof.
  split; [|split].
  - intros Hnan.
    apply (sort_bboxes_ascending dist pred _ _key_left_to_right Hpred);
      [left; split; reflexivity|exact Hnan].
  - intros Hnan.
    destruct (sort_bboxes_ascending dist pred SortBy.AREA _key_area Hpred)
      as (pred' & Hrun & Hs).
    + right. right. split; reflexivity.
    + eapply Forall_impl; [|exact Hnan]. intros b Hb. unfold _key_area.
      now rewrite float_opp_nan.
    + exists pred'. split; [exact Hrun|].
      eapply StronglySorted_weaken; [|exact Hs].
      intros a b. unfold _key_area. now rewrite float_opp_leb.
  - pose proof Hpred as Hpred'. unfold PredictionSet in Hpred'.
    apply andb_true_iff in Hpred'. destruct Hpred' as [_ Hwf].
    destruct (key_for_exists dist pred SortBy.CENTER_TO_EDGE Hwf) as [key Hkey];
      [unfold SortBy.CENTER_TO_EDGE; lia|].
    destruct Hkey as [[Habs _]|[(_ & cx & cy & Hcx & Hcy & _)|[Habs _]]];
      try discriminate.
    exists cx, cy. split; [exact Hcx|]. split; [exact Hcy|]. intros Hnan.
    apply (sort_bboxes_ascending dist pred _ _ Hpred); [|exact Hnan].
    right. left. split; [reflexivity|]. now exists cx, cy.
Qed.

Lemma sort_bboxes_orders_by_key_witness :
  PredictionSet pred_ratio = true /\
  sort_bboxes euclid pred_ratio SortBy.AREA =
    Ok (mkPredictOutput
          [mkBbox 0 0 16 16; mkBbox 0 0 8 8; mkBbox 0 0 4 4]
          [mkImage 1 1 [[3]]; mkImage 1 1 [[1]]; mkImage 1 1 [[2]]]
          [0.75%float; 0.5%float; 0.25%float]
          (mkImage 16 16 [])) /\
  exists pred',
    sort_bboxes euclid pred_ratio SortBy.AREA = Ok pred' /\
    StronglySorted (fun a b => (bbox_area b <=? bbox_area a)%float = true)
      (bboxes pred').
Proof.
  split; [reflexivity|]. split; [vm_compute; reflexivity|].
  apply (proj1 (proj2 (sort_bboxes_orders_by_key euclid pred_ratio eq_refl))).
  repeat constructor.
Defined.

(** ** Doing it twice *)

Lemma picks_Forall {A : Type} (P : A -> Prop) (l : list A) idx out :
  picks l idx out -> Forall P l -> Forall P out.
Proof.
  intros Hp Hall. rewrite Forall_forall in Hall.
  induction Hp as [|i a idx out Ha _ IH]; constructor; [|exact IH].
  eapply Hall, nth_error_In, Ha.
Qed.

Lemma picks_unique {A : Type} (l : list A) idx out1 out2 :
  picks l idx out1 -> picks l idx out2 -> out1 = out2.
Proof.
  intros H1. revert out2. induction H1 as [|i a idx out1 Ha _ IH]; intros out2 H2.
  - now inversion H2.
  - inversion H2 as [|? b ? out2' Hb Hrest]; subst. f_equal; [congruence|].
    now apply IH.
Qed.

Lemma picks_range {A : Type} (l out : list A) :
  picks l (range (length l)) out -> out = l.
Proof. intros H. exact (picks_unique _ _ _ _ H (picks_all l)). Qed.

Lemma stable_sort_sorted_id {A : Type} (lt : A -> A -> bool) l :
  StronglySorted (fun a b => lt b a = false) l -> stable_sort lt l = l.
Proof.
  induction 1 as [|x l Hs IH Hx]; [reflexivity|]. cbn.
  fold (stable_sort lt l). rewrite IH.
  destruct l as [|y l']; [reflexivity|]. cbn.
  inversion Hx as [|? ? Hyx _]; subst. now rewrite Hyx.
Qed.

Lemma combine_sorted_by_fst {A B : Type} (R : A -> A -> Prop) (l : list A) :
  StronglySorted R l ->
  forall l2 : list B,
    StronglySorted (fun p q => R (fst p) (fst q)) (combine l l2).
Proof.
  induction 1 as [|x l Hs IH Hx]; intros l2; [constructor|].
  destruct l2 as [|b l2]; cbn; constructor; [apply IH|].
  apply Forall_forall. intros [a c] Hin. apply in_combine_l in Hin.
  rewrite Forall_forall in Hx. cbn. now apply Hx.
Qed.

(** Boxes already in the order of their keys are left where they are. *)
Lemma sort_index_sorted_id (key : bbox -> float) (bs : list bbox) :
  StronglySorted (fun a b => (key a <=? key b)%float = true) bs ->
  sort_index key bs = range (length bs).
Proof.
  intros Hs. unfold sort_index. rewrite stable_sort_sorted_id.
  - rewrite <- (length_map key bs) at 1. rewrite map_snd_combine_range.
    now rewrite length_map.
  - apply (combine_sorted_by_fst (fun x y => (y <? x)%float = false)).
    apply StronglySorted_map.
    eapply StronglySorted_weaken; [|exact Hs].
    intros a b. apply float_leb_not_ltb.
Qed.

(** X21: sorting a sorted set changes nothing: on a prediction set whose
    keys are not NaN, [sort_bboxes] applied to its own result returns that
    result. *)
Theorem sort_bboxes_idempotent dist (pred : PredictOutput) (order : Z)
    (key : bbox -> float)
    (Hpred : PredictionSet pred = true)
    (Hkey : key_for dist pred order key)
    (Hnan : Forall (fun b => is_nan (key b) = false) (bboxes pred)) :
  exists pred',
    sort_bboxes dist pred order = Ok pred' /\
    sort_bboxes dist pred' order = Ok pred'.
Proof.
  pose proof Hpred as Hpred'. unfold PredictionSet in Hpred'.
  apply andb_true_iff in Hpred'. destruct Hpred' as [Hal Hwf].
  apply Nat.eqb_eq in Hal.
  destruct (Nat.le_gt_cases (length (bboxes pred)) 1) as [Hshort|Hlong].
  - exists pred. split; now apply sort_bboxes_short.
  - destruct (sort_bboxes_run dist pred order key Hkey Hlong Hal)
      as (bs & ms & Hrun & Hpb & Hpm).
    rewrite (sorted_index_no_nan key _ Hnan) in Hpb, Hpm.
    pose proof (sort_index_ascending key (bboxes pred) bs Hnan Hpb) as Hs.
    pose proof (picks_Forall _ _ _ _ Hpb Hnan) as Hnan2.
    assert (Hlb : length bs = length (bboxes pred)).
    { rewrite (picks_length _ _ _ Hpb).
      rewrite (Permutation_length (sort_index_perm key (bboxes pred))).
      unfold range. apply length_seq. }
    assert (Hlm : length ms = length bs)
      by now rewrite (picks_length _ _ _ Hpm), (picks_length _ _ _ Hpb).
    set (pred' := set_masks (set_bboxes pred bs) ms) in *.
    exists pred'. split; [exact Hrun|].
    destruct (sort_bboxes_run dist pred' order key) as (bs2 & ms2 & Hrun2 & Hpb2 & Hpm2).
    + exact Hkey.
    + cbn. lia.
    + cbn. now symmetry.
    + cbn [pred' set_masks set_bboxes bboxes masks] in Hpb2, Hpm2.
      rewrite (sorted_index_no_nan key bs Hnan2) in Hpb2, Hpm2.
      rewrite (sort_index_sorted_id key bs Hs) in Hpb2, Hpm2.
      apply picks_range in Hpb2. rewrite <- Hlm in Hpm2. apply picks_range in Hpm2.
      subst bs2 ms2. exact Hrun2.
Qed.

Lemma sort_bboxes_idempotent_witness :
  exists pred',
    sort_bboxes euclid pred_ties SortBy.LEFT_TO_RIGHT = Ok pred' /\
    sort_bboxes euclid pred' SortBy.LEFT_TO_RIGHT = Ok pred'.
Proof.
  apply (sort_bboxes_idempotent euclid pred_ties SortBy.LEFT_TO_RIGHT
           _key_left_to_right eq_refl).
  - left. split; reflexivity.
  - repeat constructor.
Defined.

Lemma filter_by_ratio_frame pred low high pred' :
  filter_by_ratio pred low high = Ok pred' -> frame pred pred'.
Proof.
  intros H. unfold filter_by_ratio in H.
  destruct (len (bboxes pred) =? 0).
  - injection H as <-. split; reflexivity.
  - cbv zeta in H. frame_of_run H.
Qed.

Lemma increasing_lists_eq (l1 l2 : list nat) :
  StronglySorted Nat.lt l1 -> StronglySorted Nat.lt l2 ->
  (forall i, In i l1 <-> In i l2) -> l1 = l2.
Proof.
  intros H1. revert l2. induction H1 as [|x l1 Hs1 IH Hx]; intros l2 H2 Hin.
  - destruct l2 as [|y l2]; [reflexivity|].
    exfalso. apply (proj2 (Hin y)). now left.
  - destruct H2 as [|y l2 Hs2 Hy].
    + exfalso. apply (proj1 (Hin x)). now left.
    + rewrite Forall_forall in Hx, Hy.
      assert (Hxy : x = y).
      { destruct (proj1 (Hin x) (or_introl eq_refl)) as [->|Hx2]; [reflexivity|].
        destruct (proj2 (Hin y) (or_introl eq_refl)) as [->|Hy1]; [reflexivity|].
        specialize (Hx y Hy1). specialize (Hy x Hx2). lia. }
      subst y. f_equal. apply IH; [exact Hs2|].
      intros i. split; intros Hi.
      * destruct (proj1 (Hin i) (or_intror Hi)) as [<-|?]; [|assumption].
        specialize (Hx x Hi). lia.
      * destruct (proj2 (Hin i) (or_intror Hi)) as [<-|?]; [|assumption].
        specialize (Hy x Hi). lia.
Qed.

Lemma PredictOutput_ext (p q : PredictOutput) :
  bboxes p = bboxes q -> masks p = masks q ->
  confidences p = confidences q -> preview p = preview q -> p = q.
Proof. destruct p, q. cbn. now intros -> -> -> ->. Qed.

(** X22: filtering by ratio twice with the same bounds is filtering once:
    on a prediction set, [filter_by_ratio] applied to its own result
    returns that result. *)
Theorem filter_by_ratio_idempotent (pred : PredictOutput) (low high : float)
    (Hpred : PredictionSet pred = true) :
  exists pred',
    filter_by_ratio pred low high = Ok pred' /\
    filter_by_ratio pred' low high = Ok pred'.
Proof.
  unfold PredictionSet in Hpred. apply andb_true_iff in Hpred.
  destruct Hpred as [Hal Hwf]. apply Nat.eqb_eq in Hal.
  destruct (filter_by_ratio_run pred low high Hal Hwf)
    as (d & idx & pred' & Hd & Hrun & _ & Hin & Hpb & Hpm).
  exists pred'. split; [exact Hrun|].
  destruct (filter_by_ratio_frame _ _ _ _ Hrun) as [Hconf Hprev].
  assert (Hal' : length (bboxes pred') = length (masks pred'))
    by now rewrite (picks_length _ _ _ Hpb), (picks_length _ _ _ Hpm).
  assert (Hwf' : wf_extent (preview pred') = true) by now rewrite Hprev.
  destruct (filter_by_ratio_run pred' low high Hal' Hwf')
    as (d' & idx' & pred'' & Hd' & Hrun' & Hs' & Hin' & Hpb' & Hpm').
  rewrite Hprev, Hd in Hd'. injection Hd' as <-.
  assert (Hidx : idx' = range (length (bboxes pred'))).
  { apply increasing_lists_eq; [exact Hs'|apply seq_increasing|].
    intros i. rewrite Hin'. unfold range. rewrite in_seq. split.
    - intros (b & Hb & _). assert (i < length (bboxes pred'))%nat; [|lia].
      apply nth_error_Some. congruence.
    - intros Hi.
      destruct (nth_error (bboxes pred') i) as [b|] eqn:Hb;
        [|apply nth_error_None in Hb; lia].
      exists b. split; [reflexivity|].
      unfold picks in Hpb.
      assert (Hfrom : exists k, In k idx /\ nth_error (bboxes pred) k = Some b).
      { clear - Hpb Hb. revert i Hb.
        induction Hpb as [|k a idx0 out Hk _ IH]; intros i Hb.
        - destruct i; discriminate.
        - destruct i as [|i]; cbn in Hb.
          + injection Hb as ->. exists k. split; [now left|exact Hk].
          + destruct (IH i Hb) as (k' & Hk' & Hb'). exists k'. split; [now right|exact Hb']. }
      destruct Hfrom as (k & Hk & Hbk).
      apply Hin in Hk. destruct Hk as (b0 & Hb0 & Hlo & Hhi).
      assert (b0 = b) by congruence. subst b0. now split. }
  rewrite Hidx in Hpb', Hpm'. apply picks_range in Hpb'.
  rewrite Hal' in Hpm'. apply picks_range in Hpm'.
  destruct (filter_by_ratio_frame _ _ _ _ Hrun') as [Hconf' Hprev'].
  rewrite Hrun'. f_equal. now apply PredictOutput_ext.
Qed.

Lemma filter_by_ratio_idempotent_witness :
  PredictionSet pred_ratio = true /\
  exists pred',
    filter_by_ratio pred_ratio 0.25 1 = Ok pred' /\
    filter_by_ratio pred' 0.25 1 = Ok pred'.
Proof.
  split; [reflexivity|].
  exact (filter_by_ratio_idempotent pred_ratio 0.25 1 eq_refl).
Defined.

(** ** Bounds out of order *)

Lemma sf_leb_trans a b c :
  SFleb a b = true -> SFleb b c = true -> SFleb a c = true.
Proof. sf_cases. Qed.

Lemma float_leb_trans (a b c : float) :
  (a <=? b)%float = true -> (b <=? c)%float = true -> (a <=? c)%float = true.
Proof. rewrite !leb_spec. apply sf_leb_trans. Qed.

(** X24: when [low <= high] does not hold, the bounds being out of order
    or one of them a NaN, [filter_by_ratio] keeps no box and no mask of a
    prediction set. *)
Theorem filter_by_ratio_empty_range (pred : PredictOutput) (low high : float)
    (Hpred : PredictionSet pred = true)
    (Hrange : (low <=? high)%float = false) :
  exists pred',
    filter_by_ratio pred low high = Ok pred' /\
    bboxes pred' = [] /\ masks pred' = [].
Proof.
  unfold PredictionSet in Hpred. apply andb_true_iff in Hpred.
  destruct Hpred as [Hal Hwf]. apply Nat.eqb_eq in Hal.
  destruct (filter_by_ratio_run pred low high Hal Hwf)
    as (d & idx & pred' & _ & Hrun & _ & Hin & Hpb & Hpm).
  exists pred'. split; [exact Hrun|].
  assert (Hnil : idx = []).
  { destruct idx as [|i idx]; [reflexivity|]. exfalso.
    destruct (proj1 (Hin i) (or_introl eq_refl)) as (b & _ & Hlo & Hhi).
    rewrite (float_leb_trans _ _ _ Hlo Hhi) in Hrange. discriminate. }
  subst idx. inversion Hpb. inversion Hpm. now split.
Qed.

Lemma filter_by_ratio_empty_range_witness :
  PredictionSet pred_ratio = true /\
  filter_by_ratio pred_ratio 1 0.25 =
    Ok (mkPredictOutput [] [] (confidences pred_ratio) (preview pred_ratio)) /\
  exists pred',
    filter_by_ratio pred_ratio nan 1 = Ok pred' /\
    bboxes pred' = [] /\ masks pred' = [].
Proof.
  split; [reflexivity|]. split; [vm_compute; reflexivity|].
  exact (filter_by_ratio_empty_range pred_ratio nan 1 eq_refl eq_refl).
Defined.
